(** * The per-tenant client cache of pkg/openstack/clients_factory.go

    A shallow embedding of [clientsFactory] and its methods, with the
    functions of other packages (os, the config reader, the gophercloud
    client constructors, klog, sync.Mutex) taken as an interface, and the
    properties of the cache proved against it. *)

From stdpp Require Import gmap strings list fin_maps.

Set Default Proof Using "Type".

(** ** Go values *)

(** A Go [error] is nil or carries a message; [%v] and [%s] print the
    message. *)
Definition error := option string.

Definition Errorf (msg : string) : error := Some msg.

(** Objects on the Go heap are known by their address; a pointer [*T] is an
    [option T], nil being [None]. *)
Inductive ServiceClient := ServiceClientAt (a : positive).
Inductive ProviderClient := ProviderClientAt (a : positive).
Inductive File := FileAt (fd : positive).

(** gophercloud.EndpointOpts, the two fields the factory fills in. *)
Record EndpointOpts := {
  eoRegion : string;
  eoAvailability : string
}.

(** metav1.ObjectMeta: only the label map is read, and it may be nil. *)
Record ObjectMeta := {
  Labels : option (gmap string string)
}.

(** [m[k]] on a Go map, nil included, with the zero value for a missing
    key. *)
Definition index (m : option (gmap string string)) (k : string) : string :=
  match m with
  | None => ""
  | Some l => default "" (l !! k)
  end.

(** ** Constants of the package *)

Definition CustomProjectAliasLabel : string := "shared.salt.x5.ru/project-alias".

Definition computeClientType : string := "compute".
Definition networkClientType : string := "network".
Definition loadbalancerClientType : string := "loadbalancer".
Definition routesClientType : string := "routes".
Definition secretClientType : string := "secrets".

Definition configsPath : string := "/etc/config/".

(** ** The factory *)

Record clientsFactory := {
  clientType : string;
  defaultClient : option ServiceClient;
  clients : gmap string (option ServiceClient);
  m : bool  (* the sync.Mutex: true while it is held *)
}.

Definition newClientsFactory (clientType : string)
    (defaultClient : option ServiceClient) : clientsFactory :=
  {| clientType := clientType;
     defaultClient := defaultClient;
     clients := ∅;
     m := false |}.

(** Field updates of the struct behind the receiver. *)
Definition set_m (b : bool) (c : clientsFactory) : clientsFactory :=
  {| clientType := clientType c;
     defaultClient := defaultClient c;
     clients := clients c;
     m := b |}.

Definition set_clients (cs : gmap string (option ServiceClient))
    (c : clientsFactory) : clientsFactory :=
  {| clientType := clientType c;
     defaultClient := defaultClient c;
     clients := cs;
     m := m c |}.

Definition clientKey (c : clientsFactory) (projectID : string) : string :=
  clientType c +:+ "/" +:+ projectID.

Definition configPath (c : clientsFactory) (configName : string) : string :=
  configsPath +:+ "/" +:+ configName +:+ ".conf".

(** ** What the factory calls outside this file

    Every call takes the state of the outside world (files, the network,
    the identity service) and gives back a Go result pair and the next
    world. *)
Class Externals := {
  World : Type;
  Config : Type;
  AuthOpts : Type;
  Global : Config → AuthOpts;
  Region : AuthOpts → string;
  EndpointType : AuthOpts → string;
  userAgentData : list string;
  os_Open : string → World → (option File * error) * World;
  File_Close : option File → World → World;
  ReadConfig : option File → World → (Config * error) * World;
  NewOpenStackClient :
    AuthOpts → string → list string → World →
    (option ProviderClient * error) * World;
  NewComputeV2 :
    option ProviderClient → EndpointOpts → World →
    (option ServiceClient * error) * World;
  NewNetworkV2 :
    option ProviderClient → EndpointOpts → World →
    (option ServiceClient * error) * World;
  NewLoadBalancerV2 :
    option ProviderClient → EndpointOpts → World →
    (option ServiceClient * error) * World;
  NewKeyManagerV1 :
    option ProviderClient → EndpointOpts → World →
    (option ServiceClient * error) * World
}.

(** ** Events

    Every call that leaves the function is recorded, newest last, so that
    the number of times the loader or a constructor ran can be read off. *)
Inductive Arg :=
  | AString (s : string)
  | AError (e : error).

Inductive Event :=
  | EvLock
  | EvUnlock
  | EvOpen (path : string)
  | EvReadConfig
  | EvClose
  | EvNewOpenStackClient
  | EvNewComputeV2
  | EvNewNetworkV2
  | EvNewLoadBalancerV2
  | EvNewKeyManagerV1
  | EvErrorf (format : string) (args : list Arg)
  | EvStore (key : string) (client : option ServiceClient).

Global Instance Arg_eq_dec : EqDecision Arg.
Proof. solve_decision. Defined.

Global Instance ServiceClient_eq_dec : EqDecision ServiceClient.
Proof. solve_decision. Defined.

Global Instance Event_eq_dec : EqDecision Event.
Proof. solve_decision. Defined.

(** The formats of two of the log lines. *)
Definition notFoundFormat : string :=
  "openstack client not found for project %s: %#v".

Definition failedGetFormat : string :=
  "Failed to get openstack client for project %s: %#v".

Definition supportedKind (kind : string) : bool :=
  String.eqb kind computeClientType
  || String.eqb kind networkClientType
  || String.eqb kind loadbalancerClientType
  || String.eqb kind routesClientType
  || String.eqb kind secretClientType.

Section Factory.
Context `{Ext : Externals}.

(** ** State and the monad of a method call *)

Record State := {
  fac : clientsFactory;
  world : World;
  trace : list Event
}.

(** A call returns, waits for ever on the mutex, or panics. *)
Inductive Outcome (A : Type) :=
  | Returns (a : A) (s : State)
  | Blocks
  | Panics.
Arguments Returns {A} a s.
Arguments Blocks {A}.
Arguments Panics {A}.

Definition M (A : Type) : Type := State → Outcome A.

Definition ret {A} (a : A) : M A := fun s => Returns a s.

Definition bind {A B} (x : M A) (k : A → M B) : M B :=
  fun s =>
    match x s with
    | Returns a s' => k a s'
    | Blocks => Blocks
    | Panics => Panics
    end.

Global Instance M_ret : MRet M := @ret.
Global Instance M_bind : MBind M := fun A B k x => bind x k.

Definition emit (ev : Event) (s : State) : State :=
  {| fac := fac s; world := world s; trace := trace s ++ [ev] |}.

Definition panic {A} : M A := fun _ => Panics.

(** The receiver [c]. *)
Definition this : M clientsFactory := fun s => Returns (fac s) s.

(** A call of an outside function. *)
Definition extern {A} (ev : Event) (f : World → A * World) : M A :=
  fun s =>
    let '(a, w) := f (world s) in
    Returns a {| fac := fac s; world := w; trace := trace s ++ [ev] |}.

Definition klog_Errorf (format : string) (args : list Arg) : M unit :=
  fun s => Returns tt (emit (EvErrorf format args) s).

(** The state once the mutex has been taken. *)
Definition locked (s : State) : State :=
  {| fac := set_m true (fac s);
     world := world s;
     trace := trace s ++ [EvLock] |}.

(** [c.m.Lock()]: waits while the mutex is held. *)
Definition Lock : M unit :=
  fun s => if m (fac s) then Blocks else Returns tt (locked s).

(** [c.m.Unlock()]: unlocking a free mutex is a fatal error. *)
Definition Unlock : M unit :=
  fun s =>
    if m (fac s) then Returns tt
      {| fac := set_m false (fac s);
         world := world s;
         trace := trace s ++ [EvUnlock] |}
    else Panics.

(** [c.clients[key] = client]. *)
Definition store (key : string) (client : option ServiceClient) : M unit :=
  fun s =>
    Returns tt
      {| fac := set_clients (<[key := client]> (clients (fac s))) (fac s);
         world := world s;
         trace := trace s ++ [EvStore key client] |}.

(** ** The methods *)

Definition getProjectConfig (projectAlias : string) : M (option Config * error) :=
  c ← this;
  let fullConfigPath := configPath c projectAlias in
  '(config, err) ← extern (EvOpen fullConfigPath) (os_Open fullConfigPath);
  match err with
  | Some e =>
      klog_Errorf "Couldn't open cloud provider configuration %s: %#v"
        [AString fullConfigPath; AError err] ;;
      ret (None, Errorf ("failed to open cloud provider configuration "
                         +:+ fullConfigPath +:+ ": " +:+ e))
  | None =>
      '(cloudConfig, err) ← extern EvReadConfig (ReadConfig config);
      (* the deferred config.Close() *)
      extern EvClose (fun w => (tt, File_Close config w)) ;;
      match err with
      | Some e =>
          ret (None, Errorf ("failed to read cloud provider configuration "
                             +:+ fullConfigPath +:+ ": " +:+ e))
      | None => ret (Some cloudConfig, None)
      end
  end.

Definition getProjectProvider (cloudConfig : option Config)
    : M (option ProviderClient * bool * error) :=
  match cloudConfig with
  | None => panic  (* &cloudConfig.Global through a nil pointer *)
  | Some cfg =>
      '(provider, err) ←
        extern EvNewOpenStackClient
          (NewOpenStackClient (Global cfg) "openstack-cloud-controller-manager"
             userAgentData);
      match err with
      | Some e =>
          ret (None, false, Errorf ("failed to create openstack client: " +:+ e))
      | None => ret (provider, true, None)
      end
  end.

(** One arm of the switch: call the constructor, log and pass on its
    failure. *)
Definition typedArm (ev : Event)
    (ctor : World → (option ServiceClient * error) * World)
    (format : string) : M (option ServiceClient * error) :=
  '(cl, err) ← extern ev ctor;
  match err with
  | Some e => klog_Errorf format [AError err] ;; ret (None, err)
  | None => ret (cl, None)
  end.

Definition getProjectTypedClient (projectAlias : string)
    : M (option ServiceClient * error) :=
  c ← this;
  '(cloudConfig, err) ← getProjectConfig projectAlias;
  match err with
  | Some e =>
      ret (None, Errorf ("failed to read cloud provider configuration " +:+ e))
  | None =>
      '(provider, ok, err) ← getProjectProvider cloudConfig;
      match err with
      | Some e =>
          klog_Errorf "Couldn't get openstack client for project %s: %#v"
            [AString projectAlias; AError err] ;;
          ret (None, err)
      | None =>
          if negb ok then
            klog_Errorf "openstack client not found for project %s: %#v"
              [AString projectAlias; AError err] ;;
            ret (None, err)
          else
            match cloudConfig with
            | None => panic  (* cloudConfig.Global through a nil pointer *)
            | Some cfg =>
                let epOpts :=
                  {| eoRegion := Region (Global cfg);
                     eoAvailability := EndpointType (Global cfg) |} in
                if String.eqb (clientType c) computeClientType then
                  typedArm EvNewComputeV2 (NewComputeV2 provider epOpts)
                    "unable to access compute v2 API : %v"
                else if String.eqb (clientType c) networkClientType then
                  typedArm EvNewNetworkV2 (NewNetworkV2 provider epOpts)
                    "Failed to create an OpenStack Network client: %v"
                else if String.eqb (clientType c) loadbalancerClientType then
                  typedArm EvNewLoadBalancerV2 (NewLoadBalancerV2 provider epOpts)
                    "Failed to create an OpenStack LoadBalancer client: %v"
                else if String.eqb (clientType c) routesClientType then
                  typedArm EvNewNetworkV2 (NewNetworkV2 provider epOpts)
                    "Failed to create an OpenStack Network client: %v"
                else if String.eqb (clientType c) secretClientType then
                  typedArm EvNewKeyManagerV1 (NewKeyManagerV1 provider epOpts)
                    "Failed to create an OpenStack Secret client: %v"
                else
                  ret (None, Errorf ("unknown client type " +:+ clientType c))
            end
      end
  end.

(** The test of line 41. *)
Definition defaultScoped (meta : ObjectMeta) : bool :=
  match Labels meta with
  | None => true
  | Some _ => String.eqb (index (Labels meta) CustomProjectAliasLabel) ""
  end.

(** Lines 47 to 57, run with the mutex held. *)
Definition getLocked (customProjectAlias : string) : M (option ServiceClient) :=
  c ← this;
  match clients c !! clientKey c customProjectAlias with
  | Some memoryClient => ret memoryClient
  | None =>
      '(typedClient, err) ← getProjectTypedClient customProjectAlias;
      match err with
      | Some e =>
          klog_Errorf "Failed to get openstack client for project %s: %#v"
            [AString customProjectAlias; AError err] ;;
          ret (defaultClient c)
      | None =>
          store (clientKey c customProjectAlias) typedClient ;;
          ret typedClient
      end
  end.

Definition get (meta : ObjectMeta) : M (option ServiceClient) :=
  c ← this;
  if defaultScoped meta then ret (defaultClient c)
  else
    let customProjectAlias := index (Labels meta) CustomProjectAliasLabel in
    Lock ;;
    r ← getLocked customProjectAlias;
    (* the deferred c.m.Unlock() *)
    Unlock ;;
    ret r.

(** ** The same method, one goroutine among several

    A goroutine inside [get] is at one of these places; each step is one
    access to the shared factory. Lines are those of the method. *)
Inductive Pc :=
  | AtEntry (meta : ObjectMeta)                       (* line 41 *)
  | AtLock (alias : string)                           (* line 45 *)
  | AtLookup (alias : string)                         (* line 47 *)
  | AtConstruct (alias : string)                      (* line 51 *)
  | AtStore (alias : string) (typedClient : option ServiceClient) (* line 56 *)
  | AtUnlock (r : option ServiceClient)               (* the deferred Unlock *)
  | Finished (r : option ServiceClient).

Definition stepThread (pc : Pc) : M Pc :=
  match pc with
  | AtEntry meta =>
      c ← this;
      if defaultScoped meta then ret (Finished (defaultClient c))
      else ret (AtLock (index (Labels meta) CustomProjectAliasLabel))
  | AtLock customProjectAlias =>
      Lock ;; ret (AtLookup customProjectAlias)
  | AtLookup customProjectAlias =>
      c ← this;
      match clients c !! clientKey c customProjectAlias with
      | Some memoryClient => ret (AtUnlock memoryClient)
      | None => ret (AtConstruct customProjectAlias)
      end
  | AtConstruct customProjectAlias =>
      c ← this;
      '(typedClient, err) ← getProjectTypedClient customProjectAlias;
      match err with
      | Some e =>
          klog_Errorf "Failed to get openstack client for project %s: %#v"
            [AString customProjectAlias; AError err] ;;
          ret (AtUnlock (defaultClient c))
      | None => ret (AtStore customProjectAlias typedClient)
      end
  | AtStore customProjectAlias typedClient =>
      c ← this;
      store (clientKey c customProjectAlias) typedClient ;;
      ret (AtUnlock typedClient)
  | AtUnlock r =>
      Unlock ;; ret (Finished r)
  | Finished r => fun _ => Blocks
  end.

(** A goroutine run on its own for at most [n] steps. *)
Fixpoint runThread (n : nat) (pc : Pc) : M Pc :=
  match pc, n with
  | Finished _, _ => ret pc
  | _, 0 => ret pc
  | _, S n' => pc' ← stepThread pc; runThread n' pc'
  end.

(** The goroutines and the state they share. *)
Record Conf := {
  threads : list Pc;
  shared : State
}.

Definition isFinished (pc : Pc) : bool :=
  match pc with
  | Finished _ => true
  | _ => false
  end.

(** Goroutine [i] takes its next step; [None] when it cannot (it has
    finished, waits for the mutex, or there is no such goroutine). *)
Definition schedule (i : nat) (cf : Conf) : option Conf :=
  match threads cf !! i with
  | Some pc =>
      match stepThread pc (shared cf) with
      | Returns pc' s' =>
          Some {| threads := <[i := pc']> (threads cf); shared := s' |}
      | Blocks => None
      | Panics => None
      end
  | None => None
  end.

(** An interleaving is the list of the goroutines that step, in order. *)
Fixpoint exec (sched : list nat) (cf : Conf) : option Conf :=
  match sched with
  | [] => Some cf
  | i :: rest =>
      match schedule i cf with
      | Some cf' => exec rest cf'
      | None => None
      end
  end.

Definition start (metas : list ObjectMeta) (s : State) : Conf :=
  {| threads := AtEntry <$> metas; shared := s |}.

Definition allFinished (cf : Conf) : bool :=
  forallb isFinished (threads cf).

(** ** Sequential runs *)

(** The state a factory starts in. *)
Definition initial (clientType : string) (defaultClient : option ServiceClient)
    (w : World) : State :=
  {| fac := newClientsFactory clientType defaultClient;
     world := w;
     trace := [] |}.

(** [evolves s s']: from [s], calls of [get] that return, one after the
    other, and changes of the outside world between them lead to [s']. *)
Inductive evolves (s : State) : State → Prop :=
  | evolves_refl : evolves s s
  | evolves_get s1 meta r s2 :
      evolves s s1 → get meta s1 = Returns r s2 → evolves s s2
  | evolves_world s1 w :
      evolves s s1 →
      evolves s {| fac := fac s1; world := w; trace := trace s1 |}.

(** ** Reading the trace *)

(** The events a construction emits after it has opened the file. *)
Definition constructionEvent (ev : Event) : bool :=
  match ev with
  | EvReadConfig | EvClose | EvNewOpenStackClient
  | EvNewComputeV2 | EvNewNetworkV2 | EvNewLoadBalancerV2
  | EvNewKeyManagerV1 => true
  | EvErrorf f _ =>
      negb (String.eqb f notFoundFormat) && negb (String.eqb f failedGetFormat)
  | _ => false
  end.

(** How often the file at [path] was opened. *)
Definition loaderCalls (path : string) (tr : list Event) : nat :=
  length (filter (λ ev, ev = EvOpen path) tr).

Definition isConstructorCall (ev : Event) : bool :=
  match ev with
  | EvNewComputeV2 | EvNewNetworkV2 | EvNewLoadBalancerV2
  | EvNewKeyManagerV1 => true
  | _ => false
  end.

(** How often a typed constructor was called. *)
Definition constructorCalls (tr : list Event) : nat :=
  length (filter (λ ev, isConstructorCall ev = true) tr).

Definition isStore (key : string) (ev : Event) : bool :=
  match ev with
  | EvStore k _ => String.eqb k key
  | _ => false
  end.

(** How often [c.clients[key]] was written. *)
Definition stores (key : string) (tr : list Event) : nat :=
  length (filter (λ ev, isStore key ev = true) tr).

Definition isFailure (ev : Event) : bool :=
  match ev with
  | EvErrorf f _ => String.eqb f failedGetFormat
  | _ => false
  end.

(** How often [get] gave up on a construction. *)
Definition failures (tr : list Event) : nat :=
  length (filter (λ ev, isFailure ev = true) tr).

(** The switch of getProjectTypedClient read as a table: the call, its
    event and the format of its log line for each kind, none for a kind
    that has no case. *)
Definition constructorOf (kind : string)
    : option (Event
              * (option ProviderClient → EndpointOpts → World →
                 (option ServiceClient * error) * World)
              * string) :=
  if String.eqb kind computeClientType then
    Some (EvNewComputeV2, NewComputeV2, "unable to access compute v2 API : %v")
  else if String.eqb kind networkClientType then
    Some (EvNewNetworkV2, NewNetworkV2,
          "Failed to create an OpenStack Network client: %v")
  else if String.eqb kind loadbalancerClientType then
    Some (EvNewLoadBalancerV2, NewLoadBalancerV2,
          "Failed to create an OpenStack LoadBalancer client: %v")
  else if String.eqb kind routesClientType then
    Some (EvNewNetworkV2, NewNetworkV2,
          "Failed to create an OpenStack Network client: %v")
  else if String.eqb kind secretClientType then
    Some (EvNewKeyManagerV1, NewKeyManagerV1,
          "Failed to create an OpenStack Secret client: %v")
  else None.

(** The endpoint options of line 75. *)
Definition epOptsOf (cfg : Config) : EndpointOpts :=
  {| eoRegion := Region (Global cfg);
     eoAvailability := EndpointType (Global cfg) |}.

(** The four constructors behind the five kinds. *)
Definition typedConstructors :
    list (option ProviderClient → EndpointOpts → World →
          (option ServiceClient * error) * World) :=
  [NewComputeV2; NewNetworkV2; NewLoadBalancerV2; NewKeyManagerV1].

(** What the client package promises: a constructor that reports no error
    hands out a client. *)
Definition ConstructorsSound : Prop :=
  ∀ ctor p eo w cl w',
    ctor ∈ typedConstructors → ctor p eo w = ((cl, None), w') → is_Some cl.

(** The states between two calls of a factory that was given a default
    client: the mutex is free and no client in sight is nil. *)
Definition wellFormed (s : State) : Prop :=
  m (fac s) = false
  ∧ is_Some (defaultClient (fac s))
  ∧ ∀ k v, clients (fac s) !! k = Some v → is_Some v.

(** The four ways through [get] when the mutex is free, each with the
    value returned and the state left behind. *)
Inductive getCase (meta : ObjectMeta) (s : State)
    : option ServiceClient → State → Prop :=
  | case_default :
      defaultScoped meta = true →
      getCase meta s (defaultClient (fac s)) s
  | case_hit memoryClient :
      defaultScoped meta = false →
      clients (fac s)
        !! clientKey (fac s) (index (Labels meta) CustomProjectAliasLabel)
        = Some memoryClient →
      getCase meta s memoryClient
        {| fac := fac s; world := world s;
           trace := trace s ++ [EvLock; EvUnlock] |}
  | case_failed cl e w evs :
      let a := index (Labels meta) CustomProjectAliasLabel in
      defaultScoped meta = false →
      clients (fac s) !! clientKey (fac s) a = None →
      getProjectTypedClient a (locked s) =
        Returns (cl, Some e)
          {| fac := fac (locked s); world := w;
             trace := trace s ++ EvLock :: EvOpen (configPath (fac s) a) :: evs |} →
      forallb constructionEvent evs = true →
      getCase meta s (defaultClient (fac s))
        {| fac := fac s; world := w;
           trace := trace s ++ EvLock :: EvOpen (configPath (fac s) a) :: evs
                    ++ [EvErrorf failedGetFormat [AString a; AError (Some e)];
                        EvUnlock] |}
  | case_stored cl w evs :
      let a := index (Labels meta) CustomProjectAliasLabel in
      defaultScoped meta = false →
      clients (fac s) !! clientKey (fac s) a = None →
      getProjectTypedClient a (locked s) =
        Returns (cl, None)
          {| fac := fac (locked s); world := w;
             trace := trace s ++ EvLock :: EvOpen (configPath (fac s) a) :: evs |} →
      forallb constructionEvent evs = true →
      getCase meta s cl
        {| fac := set_clients (<[clientKey (fac s) a := cl]> (clients (fac s)))
                    (fac s);
           world := w;
           trace := trace s ++ EvLock :: EvOpen (configPath (fac s) a) :: evs
                    ++ [EvStore (clientKey (fac s) a) cl; EvUnlock] |}.

(** ** Interleavings *)

(** One step of a goroutine, case by case: where it was, the shared state
    before, where it is and the shared state after. *)
Inductive threadStep : Pc → State → Pc → State → Prop :=
  | step_entry_default meta s :
      defaultScoped meta = true →
      threadStep (AtEntry meta) s (Finished (defaultClient (fac s))) s
  | step_entry meta s :
      defaultScoped meta = false →
      threadStep (AtEntry meta) s
        (AtLock (index (Labels meta) CustomProjectAliasLabel)) s
  | step_lock a s :
      m (fac s) = false →
      threadStep (AtLock a) s (AtLookup a) (locked s)
  | step_hit a s memoryClient :
      clients (fac s) !! clientKey (fac s) a = Some memoryClient →
      threadStep (AtLookup a) s (AtUnlock memoryClient) s
  | step_miss a s :
      clients (fac s) !! clientKey (fac s) a = None →
      threadStep (AtLookup a) s (AtConstruct a) s
  | step_failed a s cl e w evs :
      getProjectTypedClient a s =
        Returns (cl, Some e)
          {| fac := fac s; world := w;
             trace := trace s ++ EvOpen (configPath (fac s) a) :: evs |} →
      forallb constructionEvent evs = true →
      threadStep (AtConstruct a) s (AtUnlock (defaultClient (fac s)))
        {| fac := fac s; world := w;
           trace := (trace s ++ EvOpen (configPath (fac s) a) :: evs)
                    ++ [EvErrorf failedGetFormat [AString a; AError (Some e)]] |}
  | step_built a s cl w evs :
      getProjectTypedClient a s =
        Returns (cl, None)
          {| fac := fac s; world := w;
             trace := trace s ++ EvOpen (configPath (fac s) a) :: evs |} →
      forallb constructionEvent evs = true →
      threadStep (AtConstruct a) s (AtStore a cl)
        {| fac := fac s; world := w;
           trace := trace s ++ EvOpen (configPath (fac s) a) :: evs |}
  | step_store a typedClient s :
      threadStep (AtStore a typedClient) s (AtUnlock typedClient)
        {| fac := set_clients
                    (<[clientKey (fac s) a := typedClient]> (clients (fac s)))
                    (fac s);
           world := world s;
           trace := trace s ++ [EvStore (clientKey (fac s) a) typedClient] |}
  | step_unlock r s :
      m (fac s) = true →
      threadStep (AtUnlock r) s (Finished r)
        {| fac := set_m false (fac s);
           world := world s;
           trace := trace s ++ [EvUnlock] |}.

(** The places where the goroutine holds the mutex. *)
Definition inCS (pc : Pc) : bool :=
  match pc with
  | AtLookup _ | AtConstruct _ | AtStore _ _ | AtUnlock _ => true
  | _ => false
  end.

(** The places reached only after the key was looked up and not found. *)
Definition afterMiss (pc : Pc) : bool :=
  match pc with
  | AtConstruct _ | AtStore _ _ => true
  | _ => false
  end.

(** The value a goroutine is about to return, or has returned. *)
Definition result (pc : Pc) : option (option ServiceClient) :=
  match pc with
  | AtUnlock r | Finished r => Some r
  | _ => None
  end.

(** The steps a goroutine still has to take, at most. *)
Definition rank (pc : Pc) : nat :=
  match pc with
  | AtEntry _ => 6
  | AtLock _ => 5
  | AtLookup _ => 4
  | AtConstruct _ => 3
  | AtStore _ _ => 2
  | AtUnlock _ => 1
  | Finished _ => 0
  end.

Definition remaining (ts : list Pc) : nat := sum_list (rank <$> ts).

(** A goroutine working for the alias [a]. *)
Definition pcFor (a : string) (pc : Pc) : Prop :=
  match pc with
  | AtEntry meta =>
      defaultScoped meta = false
      ∧ index (Labels meta) CustomProjectAliasLabel = a
  | AtLock x | AtLookup x | AtConstruct x | AtStore x _ => x = a
  | AtUnlock _ | Finished _ => True
  end.

(** [h] is the goroutine that holds the mutex, if any. *)
Definition holderOf (ts : list Pc) (h : option nat) : Prop :=
  (∀ i, h = Some i → is_Some (ts !! i))
  ∧ ∀ i pc, ts !! i = Some pc → (inCS pc = true ↔ h = Some i).

(** The counts of an interleaving of goroutines that all ask for the alias
    [a], started in [s0]: [nf] constructions have failed, [stored] clients
    were stored under the key, [pend] are built and not yet stored. *)
Definition Counts (s0 : State) (a : string) (ts : list Pc) (s : State)
    : Prop :=
  let key := clientKey (fac s0) a in
  let path := configPath (fac s0) a in
  ∃ nf stored pend : nat,
    failures (trace s) = failures (trace s0) + nf
    ∧ stores key (trace s) = stores key (trace s0) + stored
    ∧ loaderCalls path (trace s)
      = loaderCalls path (trace s0) + nf + stored + pend
    ∧ (stored = 0 ∧ clients (fac s) !! key = None
       ∨ stored = 1 ∧ is_Some (clients (fac s) !! key))
    ∧ (pend = 0 ∧ (∀ i x tc, ts !! i ≠ Some (AtStore x tc))
       ∨ pend = 1 ∧ ∃ i tc, ts !! i = Some (AtStore a tc))
    ∧ (∀ i pc, ts !! i = Some pc → afterMiss pc = true →
               clients (fac s) !! key = None)
    ∧ (∀ i pc r, ts !! i = Some pc → result pc = Some r →
                 clients (fac s) !! key = Some r
                 ∨ (r = defaultClient (fac s0) ∧ 1 ≤ nf)).

(** What holds at every point of every such interleaving. *)
Definition Inv (s0 : State) (a : string) (cf : Conf) : Prop :=
  clientType (fac (shared cf)) = clientType (fac s0)
  ∧ defaultClient (fac (shared cf)) = defaultClient (fac s0)
  ∧ (∀ i pc, threads cf !! i = Some pc → pcFor a pc)
  ∧ (∃ h : option nat,
       m (fac (shared cf)) = bool_decide (is_Some h)
       ∧ holderOf (threads cf) h)
  ∧ Counts s0 a (threads cf) (shared cf).

End Factory.

Arguments Returns {Ext A} a s.
Arguments Blocks {Ext A}.
Arguments Panics {Ext A}.

(** ** A small outside world to run the factory in

    The world is the next free address. Only the tenant acme has a
    configuration file; every constructor hands out a fresh client. *)
Definition demoOpen (path : string) (w : positive)
    : (option File * error) * positive :=
  if String.eqb path "/etc/config//acme.conf"
  then ((Some (FileAt w), None), Pos.succ w)
  else ((None, Some "no such file or directory"), w).

Definition demoNew (p : option ProviderClient) (eo : EndpointOpts)
    (w : positive) : (option ServiceClient * error) * positive :=
  ((Some (ServiceClientAt w), None), Pos.succ w).

Definition demoExt : Externals :=
  {| World := positive;
     Config := string * string;
     AuthOpts := string * string;
     Global := λ cfg, cfg;
     Region := fst;
     EndpointType := snd;
     userAgentData := [];
     os_Open := demoOpen;
     File_Close := λ _ w, w;
     ReadConfig := λ _ w, ((("RegionOne", "public"), None), w);
     NewOpenStackClient := λ _ _ _ w,
       ((Some (ProviderClientAt w), None), Pos.succ w);
     NewComputeV2 := demoNew;
     NewNetworkV2 := demoNew;
     NewLoadBalancerV2 := demoNew;
     NewKeyManagerV1 := demoNew |}.

Definition metaOf (alias : string) : ObjectMeta :=
  {| Labels := Some {[ CustomProjectAliasLabel := alias ]} |}.

Definition demoDefault : option ServiceClient := Some (ServiceClientAt 1).

Definition demoInitial (kind : string) : @State demoExt :=
  @initial demoExt kind demoDefault 2%positive.



(** ** More ways to read a run *)

Section Observations.
Context `{Ext : Externals}.

(** The events that are calls of an outside function. *)
Definition isExternalCall (ev : Event) : bool :=
  match ev with
  | EvOpen _ | EvReadConfig | EvClose | EvNewOpenStackClient
  | EvNewComputeV2 | EvNewNetworkV2 | EvNewLoadBalancerV2
  | EvNewKeyManagerV1 => true
  | _ => false
  end.

Definition externalCalls (evs : list Event) : list Event :=
  filter (λ ev, isExternalCall ev = true) evs.

(** The outside calls of a construction that goes all the way, in order:
    the last one is the constructor of the kind, if the kind has one. *)
Definition constructionCalls (kind path : string) : list Event :=
  [EvOpen path; EvReadConfig; EvClose; EvNewOpenStackClient]
  ++ match constructorOf kind with
     | Some (ev, _, _) => [ev]
     | None => []
     end.

Definition isLockEvent (ev : Event) : bool :=
  match ev with
  | EvLock | EvUnlock => true
  | _ => false
  end.

(** Calls of [get], one after the other. *)
Fixpoint runGets (metas : list ObjectMeta)
    : M (list (option ServiceClient)) :=
  match metas with
  | [] => mret []
  | meta :: rest =>
      r ← get meta;
      rs ← runGets rest;
      mret (r :: rs)
  end.

(** Where goroutine [i], at [pc], stands when the goroutines in [order]
    have returned and left the state [sq] behind: it has returned too, or
    it holds the mutex and is [n] steps into its call from [sq], or it has
    not touched the shared state [s] yet. *)
Definition Placed (metas : list ObjectMeta) (order : list nat)
    (sq s : State) (i : nat) (pc : Pc) : Prop :=
  if isFinished pc then i ∈ order
  else
    ((i ∉ order)
     ∧ ∃ meta,
         metas !! i = Some meta
         ∧ if inCS pc
           then (∃ n, n + rank pc ≤ 6
                      ∧ runThread n (AtEntry meta) sq = Returns pc s)
           else (pc = AtEntry meta
                 ∨ (pc = AtLock (index (Labels meta) CustomProjectAliasLabel)
                    ∧ defaultScoped meta = false))).

(** Where an interleaving of goroutines stands with respect to a run of
    [get], call after call: the goroutines that have returned, in the order
    in which they did, are the calls made so far ([ms], with results [rs],
    ending in the state [sq]); the goroutine that holds the mutex is part
    of the way through the next call; the others have not touched the
    state. *)
Definition Serial (metas : list ObjectMeta) (s0 : State) (cf : Conf) : Prop :=
  ∃ (order : list nat) (ms : list ObjectMeta)
    (rs : list (option ServiceClient)) (sq : State) (h : option nat),
    NoDup order
    ∧ Forall2 (λ i meta, metas !! i = Some meta) order ms
    ∧ Forall2 (λ i r, threads cf !! i = Some (Finished r)) order rs
    ∧ runGets ms s0 = Returns rs sq
    ∧ length (threads cf) = length metas
    ∧ defaultClient (fac (shared cf)) = defaultClient (fac sq)
    ∧ m (fac (shared cf)) = bool_decide (is_Some h)
    ∧ holderOf (threads cf) h
    ∧ (h = None → shared cf = sq)
    ∧ ∀ i pc,
        threads cf !! i = Some pc → Placed metas order sq (shared cf) i pc.

End Observations.

(** A string without a slash. *)
Fixpoint noSlash (s : string) : bool :=
  match s with
  | EmptyString => true
  | String c rest => negb (String.eqb (String c "") "/") && noSlash rest
  end.

(** A world for the failures: the tenant missing has no file, the file of
    the tenant broken does not parse, the identity service turns the tenant
    denied away, and no network endpoint exists. *)
Definition harshOpen (path : string) (w : positive)
    : (option File * error) * positive :=
  if String.eqb path "/etc/config//missing.conf"
  then ((None, Some "no such file or directory"), w)
  else if String.eqb path "/etc/config//broken.conf"
  then ((Some (FileAt 100), None), w)
  else if String.eqb path "/etc/config//denied.conf"
  then ((Some (FileAt 101), None), w)
  else ((Some (FileAt 102), None), w).

Definition harshRead (f : option File) (w : positive)
    : ((string * string) * error) * positive :=
  match f with
  | Some (FileAt 100) => ((("", ""), Some "unexpected EOF"), w)
  | Some (FileAt 101) => ((("nowhere", "public"), None), w)
  | _ => ((("RegionOne", "public"), None), w)
  end.

Definition harshProvider (auth : string * string) (agent : string)
    (extra : list string) (w : positive)
    : (option ProviderClient * error) * positive :=
  if String.eqb (fst auth) "nowhere"
  then ((None, Some "authentication failed"), w)
  else ((Some (ProviderClientAt w), None), Pos.succ w).

Definition harshExt : Externals :=
  {| World := positive;
     Config := string * string;
     AuthOpts := string * string;
     Global := λ cfg, cfg;
     Region := fst;
     EndpointType := snd;
     userAgentData := [];
     os_Open := harshOpen;
     File_Close := λ _ w, w;
     ReadConfig := harshRead;
     NewOpenStackClient := harshProvider;
     NewComputeV2 := demoNew;
     NewNetworkV2 := λ _ _ w, ((None, Some "no endpoint"), w);
     NewLoadBalancerV2 := demoNew;
     NewKeyManagerV1 := demoNew |}.

Definition harshInitial (kind : string) : @State harshExt :=
  @initial harshExt kind demoDefault 2%positive.

(** A world as [demoExt] but for the typed constructors: they return no
    client and no error. Go's types allow it, [*gophercloud.ServiceClient]
    being a pointer. *)
Definition slackNew (p : option ProviderClient) (eo : EndpointOpts)
    (w : positive) : (option ServiceClient * error) * positive :=
  ((None, None), w).

Definition slackExt : Externals :=
  {| World := positive;
     Config := string * string;
     AuthOpts := string * string;
     Global := λ cfg, cfg;
     Region := fst;
     EndpointType := snd;
     userAgentData := [];
     os_Open := demoOpen;
     File_Close := λ _ w, w;
     ReadConfig := λ _ w, ((("RegionOne", "public"), None), w);
     NewOpenStackClient := λ _ _ _ w,
       ((Some (ProviderClientAt w), None), Pos.succ w);
     NewComputeV2 := slackNew;
     NewNetworkV2 := slackNew;
     NewLoadBalancerV2 := slackNew;
     NewKeyManagerV1 := slackNew |}.

(** * Proofs *)

(** ** Strings *)

Lemma length_append (s t : string) :
  String.length (s +:+ t) = String.length s + String.length t.
Proof.
  induction s as [|c s IH]; [done|].
  change (String c s +:+ t) with (String c (s +:+ t)). simpl. by rewrite IH.
Qed.

Lemma append_inj_r (s1 s2 t : string) : s1 +:+ t = s2 +:+ t → s1 = s2.
Proof.
  revert s2. induction s1 as [|c s1 IH]; intros [|c2 s2] H.
  - done.
  - apply (f_equal String.length) in H.
    rewrite !length_append in H. simpl in H. lia.
  - apply (f_equal String.length) in H.
    rewrite !length_append in H. simpl in H. lia.
  - change (String c (s1 +:+ t) = String c2 (s2 +:+ t)) in H.
    injection H as -> H. f_equal. by apply IH.
Qed.

Lemma clientKey_inj (c : clientsFactory) (a1 a2 : string) :
  clientKey c a1 = clientKey c a2 → a1 = a2.
Proof.
  unfold clientKey. intros H.
  apply (inj (String.append _)) in H. by apply (inj (String.append _)) in H.
Qed.

Lemma configPath_inj (c1 c2 : clientsFactory) (a1 a2 : string) :
  configPath c1 a1 = configPath c2 a2 → a1 = a2.
Proof.
  unfold configPath. intros H.
  apply (inj (String.append _)) in H. apply (inj (String.append _)) in H.
  by apply append_inj_r in H.
Qed.

(** ** Counting in a trace *)

Lemma loaderCalls_app path (t1 t2 : list Event) :
  loaderCalls path (t1 ++ t2) = loaderCalls path t1 + loaderCalls path t2.
Proof. unfold loaderCalls. by rewrite filter_app, length_app. Qed.

Lemma constructorCalls_app (t1 t2 : list Event) :
  constructorCalls (t1 ++ t2) = constructorCalls t1 + constructorCalls t2.
Proof. unfold constructorCalls. by rewrite filter_app, length_app. Qed.

Lemma stores_app key (t1 t2 : list Event) :
  stores key (t1 ++ t2) = stores key t1 + stores key t2.
Proof. unfold stores. by rewrite filter_app, length_app. Qed.

Lemma failures_app (t1 t2 : list Event) :
  failures (t1 ++ t2) = failures t1 + failures t2.
Proof. unfold failures. by rewrite filter_app, length_app. Qed.

Lemma loaderCalls_construction path (evs : list Event) :
  forallb constructionEvent evs = true → loaderCalls path evs = 0.
Proof.
  unfold loaderCalls. induction evs as [|ev evs IH]; [done|].
  simpl. intros [Hev Hevs]%andb_true_iff. rewrite filter_cons.
  destruct (decide (ev = EvOpen path)) as [->|]; [done|]. by apply IH.
Qed.

Lemma stores_construction key (evs : list Event) :
  forallb constructionEvent evs = true → stores key evs = 0.
Proof.
  unfold stores. induction evs as [|ev evs IH]; [done|].
  simpl. intros [Hev Hevs]%andb_true_iff. rewrite filter_cons.
  destruct (decide (isStore key ev = true)) as [H|]; [|by apply IH].
  by destruct ev.
Qed.

Lemma failures_construction (evs : list Event) :
  forallb constructionEvent evs = true → failures evs = 0.
Proof.
  unfold failures. induction evs as [|ev evs IH]; [done|].
  simpl. intros [Hev Hevs]%andb_true_iff. rewrite filter_cons.
  destruct (decide (isFailure ev = true)) as [H|]; [|by apply IH].
  destruct ev; try done. simpl in *. rewrite H in Hev.
  by rewrite andb_false_r in Hev.
Qed.

Lemma loaderCalls_open path path' :
  loaderCalls path [EvOpen path'] = if decide (path' = path) then 1 else 0.
Proof.
  unfold loaderCalls. rewrite filter_cons.
  destruct (decide (EvOpen path' = EvOpen path)) as [H|H];
    destruct (decide (path' = path)) as [H'|H']; try done.
  - by injection H.
  - by subst.
Qed.

Lemma call_trace (tr : list Event) path (evs tl : list Event) :
  tr ++ EvLock :: EvOpen path :: evs ++ tl
  = tr ++ [EvLock; EvOpen path] ++ evs ++ tl.
Proof. reflexivity. Qed.

Lemma failures_call (tr : list Event) path (evs tl : list Event) :
  forallb constructionEvent evs = true →
  failures (tr ++ EvLock :: EvOpen path :: evs ++ tl)
  = failures tr + failures tl.
Proof.
  intros Hevs. rewrite call_trace, !failures_app.
  rewrite (failures_construction evs Hevs). unfold failures at 2. simpl. lia.
Qed.

Lemma stores_call key (tr : list Event) path (evs tl : list Event) :
  forallb constructionEvent evs = true →
  stores key (tr ++ EvLock :: EvOpen path :: evs ++ tl)
  = stores key tr + stores key tl.
Proof.
  intros Hevs. rewrite call_trace, !stores_app.
  rewrite (stores_construction key evs Hevs). unfold stores at 2. simpl. lia.
Qed.

Lemma loaderCalls_call path' (tr : list Event) path (evs tl : list Event) :
  forallb constructionEvent evs = true →
  loaderCalls path' (tr ++ EvLock :: EvOpen path :: evs ++ tl)
  = loaderCalls path' tr + (if decide (path = path') then 1 else 0)
    + loaderCalls path' tl.
Proof.
  intros Hevs. rewrite call_trace, !loaderCalls_app.
  rewrite (loaderCalls_construction path' evs Hevs).
  change [EvLock; EvOpen path] with ([EvLock] ++ [EvOpen path]).
  rewrite loaderCalls_app, loaderCalls_open. unfold loaderCalls at 2. simpl. lia.
Qed.

(** ** The construction procedure *)

Section Sequential.
Context `{Ext : Externals}.

Lemma getProjectConfig_spec (a : string) (s : State) :
  ∃ cfg err w evs,
    getProjectConfig a s =
      Returns (cfg, err)
        {| fac := fac s; world := w;
           trace := trace s ++ EvOpen (configPath (fac s) a) :: evs |}
    ∧ forallb constructionEvent evs = true
    ∧ (err = None → is_Some cfg).
Proof.
  unfold getProjectConfig, mbind, M_bind, bind, this, extern, klog_Errorf, emit, mret, M_ret, ret.
  simpl.
  destruct (os_Open (configPath (fac s) a) (world s)) as [[config [e|]] w1]; simpl.
  - eexists _, _, _, _. split; [rewrite <- app_assoc; reflexivity|]. split; [reflexivity|done].
  - destruct (ReadConfig config w1) as [[cloudConfig [e|]] w2]; simpl.
    + eexists _, _, _, _. split; [rewrite <- !app_assoc; reflexivity|]. split; [reflexivity|done].
    + eexists _, _, _, _. split; [rewrite <- !app_assoc; reflexivity|]. split; [reflexivity|eauto].
Qed.

Lemma getProjectProvider_spec (cfg : Config) (s : State) :
  ∃ p ok err w,
    getProjectProvider (Some cfg) s =
      Returns (p, ok, err)
        {| fac := fac s; world := w;
           trace := trace s ++ [EvNewOpenStackClient] |}
    ∧ (ok = false → err ≠ None)
    ∧ (err = None → ok = true).
Proof.
  unfold getProjectProvider, mbind, M_bind, bind, extern, mret, M_ret, ret.
  destruct (NewOpenStackClient _ _ _ _) as [[p [e|]] w1]; simpl.
  - by eexists _, _, _, _.
  - by eexists _, _, _, _.
Qed.

Lemma typedArm_spec ev ctor format (s : State) :
  constructionEvent ev = true →
  constructionEvent (EvErrorf format []) = true →
  ∃ cl err w evs,
    typedArm ev ctor format s =
      Returns (cl, err)
        {| fac := fac s; world := w; trace := trace s ++ evs |}
    ∧ forallb constructionEvent evs = true
    ∧ (err = None → ctor (world s) = ((cl, None), w))
    ∧ (err ≠ None → cl = None).
Proof.
  intros Hev Hf.
  unfold typedArm, mbind, M_bind, bind, extern, klog_Errorf, emit, mret, M_ret, ret.
  destruct (ctor (world s)) as [[cl [e|]] w1]; simpl.
  - eexists _, _, _, _. split; [rewrite <- app_assoc; reflexivity|].
    simpl. rewrite Hev. simpl in Hf. rewrite Hf. done.
  - eexists _, _, _, _. split; [reflexivity|]. simpl. rewrite Hev. done.
Qed.

Lemma getProjectTypedClient_spec (a : string) (s : State) :
  ∃ cl err w evs,
    getProjectTypedClient a s =
      Returns (cl, err)
        {| fac := fac s; world := w;
           trace := trace s ++ EvOpen (configPath (fac s) a) :: evs |}
    ∧ forallb constructionEvent evs = true
    ∧ (err = None →
       ∃ ctor p eo w1 w2,
         ctor ∈ typedConstructors ∧ ctor p eo w1 = ((cl, None), w2))
    ∧ (err ≠ None → cl = None)
    ∧ (supportedKind (clientType (fac s)) = false → err ≠ None).
Proof.
  unfold getProjectTypedClient, mbind, M_bind, bind, this.
  destruct (getProjectConfig_spec a s) as (cfg & err & w & evs & -> & Hevs & Hcfg).
  destruct err as [e|]; simpl.
  { eexists _, _, _, _. split; [reflexivity|]. by repeat split. }
  destruct Hcfg as [cfg' ->]; [done|].
  match goal with |- context [getProjectProvider _ ?s1] =>
    destruct (getProjectProvider_spec cfg' s1) as (p & ok & err & w1 & -> & Hok & Herr)
  end.
  destruct err as [e|].
  { unfold klog_Errorf, emit, mret, M_ret, ret. simpl. eexists _, _, _, _.
    split; [rewrite <- !app_assoc; reflexivity|].
    rewrite forallb_app, Hevs. by repeat split. }
  rewrite (Herr eq_refl). simpl.
  set (s2 := {| fac := fac s; world := w1; trace := _ |}).
  set (eo := {| eoRegion := _; eoAvailability := _ |}).
  assert (Harm : ∀ ev ctor format,
    constructionEvent ev = true →
    constructionEvent (EvErrorf format []) = true →
    ctor ∈ typedConstructors →
    supportedKind (clientType (fac s)) = true →
    ∃ cl err w evs,
      typedArm ev (ctor p eo) format s2 =
        Returns (cl, err)
          {| fac := fac s; world := w;
             trace := trace s ++ EvOpen (configPath (fac s) a) :: evs |}
      ∧ forallb constructionEvent evs = true
      ∧ (err = None →
         ∃ ctor p eo w1 w2,
           ctor ∈ typedConstructors ∧ ctor p eo w1 = ((cl, None), w2))
      ∧ (err ≠ None → cl = None)
      ∧ (supportedKind (clientType (fac s)) = false → err ≠ None)).
  { intros ev ctor format Hev Hf Hin Hsup.
    destruct (typedArm_spec ev (ctor p eo) format s2 Hev Hf)
      as (cl & err & w2 & evs2 & -> & Hevs2 & Hsucc & Hfail).
    eexists cl, err, w2, _. subst s2. simpl.
    split; [rewrite <- !app_assoc; reflexivity|].
    rewrite !forallb_app, Hevs, Hevs2. simpl.
    repeat split; [|done|congruence].
    intros Hnil. specialize (Hsucc Hnil). eauto 10. }
  unfold supportedKind in *.
  destruct (String.eqb (clientType (fac s)) computeClientType) eqn:E1.
  { apply Harm; [done|done| |done]. unfold typedConstructors. set_solver. }
  destruct (String.eqb (clientType (fac s)) networkClientType) eqn:E2.
  { apply Harm; [done|done| |done]. unfold typedConstructors. set_solver. }
  destruct (String.eqb (clientType (fac s)) loadbalancerClientType) eqn:E3.
  { apply Harm; [done|done| |done]. unfold typedConstructors. set_solver. }
  destruct (String.eqb (clientType (fac s)) routesClientType) eqn:E4.
  { apply Harm; [done|done| |done]. unfold typedConstructors. set_solver. }
  destruct (String.eqb (clientType (fac s)) secretClientType) eqn:E5.
  { apply Harm; [done|done| |done]. unfold typedConstructors. set_solver. }
  unfold mret, M_ret, ret. subst s2. simpl.
  eexists _, _, _, _. split; [rewrite <- !app_assoc; reflexivity|].
  rewrite forallb_app, Hevs. by repeat split.
Qed.


(** ** The ways through [get] *)

Lemma set_m_unlock (c : clientsFactory) :
  m c = false → set_m false (set_m true c) = c.
Proof. destruct c; simpl. by intros ->. Qed.

Lemma set_m_unlock_store (c : clientsFactory) cs :
  m c = false → set_m false (set_clients cs (set_m true c)) = set_clients cs c.
Proof. destruct c; simpl. by intros ->. Qed.

Lemma get_blocks (meta : ObjectMeta) (s : State) :
  defaultScoped meta = false → m (fac s) = true → get meta s = Blocks.
Proof.
  intros Hd Hm. unfold get, mbind, M_bind, bind, this, Lock.
  by rewrite Hd, Hm.
Qed.

Lemma get_cases (meta : ObjectMeta) (s : State) :
  m (fac s) = false →
  ∃ r s', get meta s = Returns r s' ∧ getCase meta s r s'.
Proof.
  intros Hm. unfold get, mbind, M_bind, bind, this.
  destruct (defaultScoped meta) eqn:Hd.
  { eexists _, _. split; [reflexivity|]. by constructor. }
  unfold Lock. rewrite Hm.
  set (a := index (Labels meta) CustomProjectAliasLabel).
  unfold getLocked, mbind, M_bind, bind, this.
  change (fac (locked s)) with (set_m true (fac s)).
  change (clients (set_m true (fac s))) with (clients (fac s)).
  change (clientKey (set_m true (fac s)) a) with (clientKey (fac s) a).
  destruct (clients (fac s) !! clientKey (fac s) a) as [mc|] eqn:Hlook.
  { unfold mret, M_ret, ret, Unlock. simpl.
    eexists _, _. split; [reflexivity|].
    rewrite set_m_unlock by done. rewrite <- app_assoc. simpl.
    by apply case_hit. }
  destruct (getProjectTypedClient_spec a (locked s))
    as (cl & err & w & evs & Heq & Hevs & _).
  rewrite Heq.
  assert (Heq' : getProjectTypedClient a (locked s) =
      Returns (cl, err)
        {| fac := fac (locked s); world := w;
           trace := trace s ++ EvLock :: EvOpen (configPath (fac s) a) :: evs |}).
  { etrans; [exact Heq|]. simpl. by rewrite <- app_assoc. }
  destruct err as [e|].
  - unfold klog_Errorf, emit, mret, M_ret, ret, Unlock. simpl.
    eexists _, _. split; [reflexivity|].
    rewrite set_m_unlock by done.
    refine (eq_ind _ (getCase meta s (defaultClient (fac s)))
              (case_failed meta s cl e w evs Hd Hlook Heq' Hevs) _ _).
    f_equal. repeat (rewrite <- app_assoc; simpl). reflexivity.
  - unfold store, mret, M_ret, ret, Unlock. simpl.
    eexists _, _. split; [reflexivity|].
    rewrite set_m_unlock_store by done.
    refine (eq_ind _ (getCase meta s cl)
              (case_stored meta s cl w evs Hd Hlook Heq' Hevs) _ _).
    f_equal. repeat (rewrite <- app_assoc; simpl). reflexivity.
Qed.

Lemma getProjectTypedClient_config_fails (a : string) (s : State) cfg e s1 :
  getProjectConfig a s = Returns (cfg, Some e) s1 →
  getProjectTypedClient a s =
    Returns (None, Errorf ("failed to read cloud provider configuration " +:+ e))
      s1.
Proof.
  intros H. unfold getProjectTypedClient, mbind, M_bind, bind, this.
  by rewrite H.
Qed.

Lemma getProjectTypedClient_provider_fails (a : string) (s : State)
    cfg s1 p ok e s2 :
  getProjectConfig a s = Returns (Some cfg, None) s1 →
  getProjectProvider (Some cfg) s1 = Returns (p, ok, Some e) s2 →
  getProjectTypedClient a s =
    Returns (None, Some e)
      (emit (EvErrorf "Couldn't get openstack client for project %s: %#v"
               [AString a; AError (Some e)]) s2).
Proof.
  intros H1 H2. unfold getProjectTypedClient, mbind, M_bind, bind, this.
  by rewrite H1, H2.
Qed.

Lemma getProjectProvider_ok (cfg : option Config) (s : State) p ok err s1 :
  getProjectProvider cfg s = Returns (p, ok, err) s1 →
  (ok = false → err ≠ None) ∧ (err = None → ok = true).
Proof.
  destruct cfg as [cfg|]; [|done].
  destruct (getProjectProvider_spec cfg s) as (p' & ok' & err' & w & -> & H1 & H2).
  by intros [= <- <- <- _].
Qed.

(** With the configuration read and the provider handle built, the method
    does what the table says for the kind of the factory. *)
Lemma getProjectTypedClient_switch (a : string) (s : State) cfg s1 p ok s2 :
  getProjectConfig a s = Returns (Some cfg, None) s1 →
  getProjectProvider (Some cfg) s1 = Returns (p, ok, None) s2 →
  getProjectTypedClient a s =
    match constructorOf (clientType (fac s)) with
    | Some (ev, ctor, format) => typedArm ev (ctor p (epOptsOf cfg)) format s2
    | None =>
        Returns (None, Errorf ("unknown client type " +:+ clientType (fac s))) s2
    end.
Proof.
  intros H1 H2.
  destruct (getProjectProvider_ok _ _ _ _ _ _ H2) as [_ Hok].
  specialize (Hok eq_refl). subst ok.
  unfold getProjectTypedClient, mbind, M_bind, bind, this.
  rewrite H1, H2. simpl. unfold constructorOf, epOptsOf.
  repeat (destruct (String.eqb (clientType (fac s)) _); [reflexivity|]).
  reflexivity.
Qed.

Lemma constructorOf_supported (kind : string) :
  supportedKind kind = false → constructorOf kind = None.
Proof.
  unfold supportedKind, constructorOf. intros H.
  repeat (apply orb_false_elim in H as [H ?]).
  by repeat match goal with E : String.eqb _ _ = false |- _ => rewrite E; clear E end.
Qed.

Lemma typedArm_success ev ctor format (s : State) cl s' :
  typedArm ev ctor format s = Returns (cl, None) s' →
  ctor (world s) = ((cl, None), world s') ∧ trace s' = trace s ++ [ev].
Proof.
  unfold typedArm, mbind, M_bind, bind, extern, klog_Errorf, emit, mret, M_ret, ret.
  destruct (ctor (world s)) as [[cl' [e|]] w1]; simpl; [done|].
  by intros [= <- <-].
Qed.

(** A construction that reports no error has read the configuration, built
    the provider handle and got its client from the constructor of the
    kind. *)
Lemma getProjectTypedClient_success (a : string) (s : State) cl s' :
  getProjectTypedClient a s = Returns (cl, None) s' →
  ∃ cfg s1 p s2 ev ctor format,
    getProjectConfig a s = Returns (Some cfg, None) s1
    ∧ getProjectProvider (Some cfg) s1 = Returns (p, true, None) s2
    ∧ constructorOf (clientType (fac s)) = Some (ev, ctor, format)
    ∧ ctor p (epOptsOf cfg) (world s2) = ((cl, None), world s')
    ∧ trace s' = trace s2 ++ [ev].
Proof.
  intros Hok.
  destruct (getProjectConfig_spec a s) as (cfg & err & w & evs & Hc & _ & Hcfg).
  destruct err as [e|].
  { by rewrite (getProjectTypedClient_config_fails _ _ _ _ _ Hc) in Hok. }
  destruct Hcfg as [cfg' ->]; [done|].
  match type of Hc with _ = Returns _ ?st =>
    destruct (getProjectProvider_spec cfg' st) as (p & ok & err & w1 & Hp & _ & Hokp)
  end.
  destruct err as [e|].
  { by rewrite (getProjectTypedClient_provider_fails _ _ _ _ _ _ _ _ Hc Hp) in Hok. }
  rewrite (Hokp eq_refl) in Hp.
  rewrite (getProjectTypedClient_switch _ _ _ _ _ _ _ Hc Hp) in Hok.
  destruct (constructorOf (clientType (fac s))) as [[[ev ctor] format]|] eqn:Hk;
    [|done].
  apply typedArm_success in Hok as [Hcall Htr].
  by eexists cfg', _, p, _, ev, ctor, format.
Qed.

Lemma constructorOf_typed (kind : string) ev ctor format :
  constructorOf kind = Some (ev, ctor, format) → ctor ∈ typedConstructors.
Proof.
  unfold constructorOf, typedConstructors.
  repeat (destruct (String.eqb kind _); [intros [= <- <- <-]; set_solver|]).
  done.
Qed.

Lemma construction_never_not_found (evs : list Event) args :
  forallb constructionEvent evs = true → EvErrorf notFoundFormat args ∉ evs.
Proof.
  intros Hevs Hin. rewrite forallb_forall in Hevs.
  apply list_elem_of_In, Hevs in Hin. done.
Qed.

Lemma typedArm_failure ev ctor format (s : State) cl e w :
  ctor (world s) = ((cl, Some e), w) →
  typedArm ev ctor format s =
    Returns (None, Some e)
      {| fac := fac s; world := w;
         trace := (trace s ++ [ev]) ++ [EvErrorf format [AError (Some e)]] |}.
Proof.
  intros H.
  unfold typedArm, mbind, M_bind, bind, extern, klog_Errorf, emit, mret, M_ret, ret.
  by rewrite H.
Qed.

(** Whichever step fails, the configuration, the provider handle or the
    typed constructor, the construction returns a nil client and an
    error. *)
Lemma construction_fails_at_any_step (a : string) (s : State) :
  (∀ cfg e s1,
     getProjectConfig a s = Returns (cfg, Some e) s1 →
     ∃ e' s', getProjectTypedClient a s = Returns (None, Some e') s')
  ∧ (∀ cfg s1 p ok e s2,
       getProjectConfig a s = Returns (Some cfg, None) s1 →
       getProjectProvider (Some cfg) s1 = Returns (p, ok, Some e) s2 →
       ∃ e' s', getProjectTypedClient a s = Returns (None, Some e') s')
  ∧ (∀ cfg s1 p ok s2 ev ctor format cl e w,
       getProjectConfig a s = Returns (Some cfg, None) s1 →
       getProjectProvider (Some cfg) s1 = Returns (p, ok, None) s2 →
       constructorOf (clientType (fac s)) = Some (ev, ctor, format) →
       ctor p (epOptsOf cfg) (world s2) = ((cl, Some e), w) →
       ∃ e' s', getProjectTypedClient a s = Returns (None, Some e') s').
Proof.
  repeat split.
  - intros cfg e s1 Hc.
    rewrite (getProjectTypedClient_config_fails _ _ _ _ _ Hc). by eexists _, _.
  - intros cfg s1 p ok e s2 Hc Hp.
    rewrite (getProjectTypedClient_provider_fails _ _ _ _ _ _ _ _ Hc Hp).
    by eexists _, _.
  - intros cfg s1 p ok s2 ev ctor format cl e w Hc Hp Hk Hcall.
    rewrite (getProjectTypedClient_switch _ _ _ _ _ _ _ Hc Hp), Hk.
    rewrite (typedArm_failure _ _ _ _ _ _ _ Hcall). by eexists _, _.
Qed.

(** C10. getProjectTypedClient always returns, and never a nil client with a
    nil error: with a nil error the client is what the typed constructor of
    the kind returned with a nil error, hence not nil (the constructors
    keeping their contract). getProjectProvider reports ok=false only with
    an error, so the branch for ok=false after the error test is never
    taken: its log line is never written. *)
Theorem typed_client_or_error (a : string) (s : State) :
  ConstructorsSound →
  (∀ cfg s0 p ok err s1,
     getProjectProvider cfg s0 = Returns (p, ok, err) s1 →
     ok = false → err ≠ None)
  ∧ ∃ cl err s',
      getProjectTypedClient a s = Returns (cl, err) s'
      ∧ ¬ (cl = None ∧ err = None)
      ∧ (err = None →
         is_Some cl
         ∧ ∃ ev ctor format p eo w1 w2,
             constructorOf (clientType (fac s)) = Some (ev, ctor, format)
             ∧ ctor p eo w1 = ((cl, None), w2))
      ∧ ∃ evs, trace s' = trace s ++ evs
               ∧ ∀ args, EvErrorf notFoundFormat args ∉ evs.
Proof.
  intros Hsound. split.
  { intros cfg s0 p ok err s1 H. by apply getProjectProvider_ok in H as [H _]. }
  destruct (getProjectTypedClient_spec a s)
    as (cl & err & w & evs & Heq & Hevs & _ & _ & _).
  eexists cl, err, _. split; [exact Heq|].
  assert (Hsucc : err = None →
    is_Some cl
    ∧ ∃ ev ctor format p eo w1 w2,
        constructorOf (clientType (fac s)) = Some (ev, ctor, format)
        ∧ ctor p eo w1 = ((cl, None), w2)).
  { intros ->.
    destruct (getProjectTypedClient_success _ _ _ _ Heq)
      as (cfg & s1 & p & s2 & ev & ctor & format & _ & _ & Hk & Hcall & _).
    split; [|by eauto 10].
    eapply Hsound; [|exact Hcall]. by eapply constructorOf_typed. }
  split; [|split; [done|]].
  - intros [-> ->]. destruct (Hsucc eq_refl) as [[? ?] _]. done.
  - eexists. split; [reflexivity|]. intros args Hin.
    apply elem_of_cons in Hin as [?|Hin]; [done|].
    by eapply construction_never_not_found.
Qed.

End Sequential.

(** ** Keys and paths *)

Section Keys.
Context `{Ext : Externals}.

(** C8. The configuration of a tenant is read from the path made of the
    configs root "/etc/config/", a slash, the alias and ".conf": the path
    depends on the alias alone (not on the factory), for the alias acme it
    is "/etc/config//acme.conf", and it is the one file the loader opens. *)
Theorem configPath_is_root_alias_conf (c : clientsFactory) (alias : string) :
  configsPath = "/etc/config/"
  ∧ configPath c alias = configsPath +:+ "/" +:+ alias +:+ ".conf"
  ∧ (∀ c' : clientsFactory, configPath c' alias = configPath c alias)
  ∧ configPath c "acme" = "/etc/config//acme.conf"
  ∧ (∀ s : State, ∃ res w evs,
       getProjectConfig alias s =
         Returns res
           {| fac := fac s; world := w;
              trace := trace s
                ++ EvOpen ("/etc/config/" +:+ "/" +:+ alias +:+ ".conf") :: evs |}
       ∧ ∀ path, loaderCalls path evs = 0).
Proof.
  repeat split; try reflexivity.
  intros s.
  destruct (getProjectConfig_spec alias s) as (cfg & err & w & evs & Heq & Hevs & _).
  exists (cfg, err), w, evs. split; [exact Heq|].
  intros path. by apply loaderCalls_construction.
Qed.

End Keys.

(** ** Sequential runs of [get] *)

Section Runs.
Context `{Ext : Externals}.

Lemma getCase_frame (meta : ObjectMeta) (s : State) r s' :
  getCase meta s r s' →
  m (fac s') = m (fac s)
  ∧ clientType (fac s') = clientType (fac s)
  ∧ defaultClient (fac s') = defaultClient (fac s).
Proof. by destruct 1. Qed.

Lemma getCase_mono (meta : ObjectMeta) (s : State) r s' :
  getCase meta s r s' →
  ∀ k v, clients (fac s) !! k = Some v → clients (fac s') !! k = Some v.
Proof.
  destruct 1; try done. intros k v Hk. simpl.
  destruct (decide (clientKey (fac s) a = k)) as [<-|Hne].
  - congruence.
  - by rewrite lookup_insert_ne.
Qed.

Lemma evolves_frame (s s' : State) :
  evolves s s' →
  m (fac s) = false →
  m (fac s') = false
  ∧ clientType (fac s') = clientType (fac s)
  ∧ defaultClient (fac s') = defaultClient (fac s)
  ∧ ∀ k v, clients (fac s) !! k = Some v → clients (fac s') !! k = Some v.
Proof.
  intros Hev Hm. induction Hev as [|s1 meta r s2 _ IH Hget|s1 w _ IH].
  - done.
  - destruct IH as (Hm1 & Hk & Hd & Hmono).
    destruct (get_cases meta s1 Hm1) as (r' & s2' & Hget' & Hcase).
    rewrite Hget in Hget'. injection Hget' as <- <-.
    destruct (getCase_frame _ _ _ _ Hcase) as (Hm2 & Hk2 & Hd2).
    repeat split; [congruence..|].
    intros k v Hkv. eapply getCase_mono; eauto.
  - done.
Qed.

Lemma evolves_trans (s1 s2 s3 : State) :
  evolves s1 s2 → evolves s2 s3 → evolves s1 s3.
Proof.
  intros H12 H23. induction H23; [done|..].
  - by eapply evolves_get.
  - by apply evolves_world.
Qed.

(** C2. When the label map is nil, or the tenant-alias label is absent or
    empty, [get] returns the default client of the factory and leaves the
    whole state as it was: the map, the mutex (which it does not wait for,
    so the call returns even while another goroutine holds it), the outside
    world and the trace, which gains no Lock event. In every state of a
    factory made by newClientsFactory that client is the one given then. *)
Theorem get_default_scope (meta : ObjectMeta) (s : State) :
  (Labels meta = None
   ∨ ∃ l, Labels meta = Some l
          ∧ (l !! CustomProjectAliasLabel = None
             ∨ l !! CustomProjectAliasLabel = Some "")) →
  get meta s = Returns (defaultClient (fac s)) s
  ∧ ∀ kind d w0, evolves (initial kind d w0) s → defaultClient (fac s) = d.
Proof.
  intros Hlab. split.
  - unfold get, mbind, M_bind, bind, this.
    assert (defaultScoped meta = true) as ->; [|done].
    unfold defaultScoped, index.
    destruct Hlab as [->|(l & -> & [->| ->])]; done.
  - intros kind d w0 Hev.
    by destruct (evolves_frame _ _ Hev eq_refl) as (_ & _ & -> & _).
Qed.

Lemma get_returns_inv (meta : ObjectMeta) (s : State) r s' :
  get meta s = Returns r s' →
  (defaultScoped meta = true ∧ r = defaultClient (fac s) ∧ s' = s)
  ∨ (defaultScoped meta = false ∧ m (fac s) = false ∧ getCase meta s r s').
Proof.
  intros Hget. destruct (defaultScoped meta) eqn:Hd.
  - left. unfold get, mbind, M_bind, bind, this in Hget. rewrite Hd in Hget.
    by injection Hget as <- <-.
  - right. destruct (m (fac s)) eqn:Hm.
    + by rewrite get_blocks in Hget.
    + destruct (get_cases meta s Hm) as (r' & s2 & Hget' & Hcase).
      rewrite Hget in Hget'. by injection Hget' as <- <-.
Qed.

Lemma get_step_mono (meta : ObjectMeta) (s : State) r s' :
  get meta s = Returns r s' →
  ∀ k v, clients (fac s) !! k = Some v → clients (fac s') !! k = Some v.
Proof.
  intros [(_ & _ & ->)|(_ & _ & Hcase)]%get_returns_inv; [done|].
  by eapply getCase_mono.
Qed.

Lemma evolves_mono (s s' : State) :
  evolves s s' →
  ∀ k v, clients (fac s) !! k = Some v → clients (fac s') !! k = Some v.
Proof.
  induction 1 as [|s1 meta r s2 _ IH Hget|s1 w _ IH]; [done| |done].
  intros k v Hk. eapply get_step_mono; eauto.
Qed.

Lemma evolves_fields (s s' : State) :
  evolves s s' →
  m (fac s') = m (fac s)
  ∧ clientType (fac s') = clientType (fac s)
  ∧ defaultClient (fac s') = defaultClient (fac s).
Proof.
  induction 1 as [|s1 meta r s2 _ IH Hget|s1 w _ IH]; [done| |done].
  destruct IH as (Hm & Hk & Hd).
  apply get_returns_inv in Hget as [(_ & _ & ->)|(_ & _ & Hcase)]; [done|].
  destruct (getCase_frame _ _ _ _ Hcase) as (Hm2 & Hk2 & Hd2).
  repeat split; congruence.
Qed.

Lemma wellFormed_initial kind (d : ServiceClient) w0 :
  wellFormed (initial kind (Some d) w0).
Proof.
  split; [done|]. split; [by eexists|].
  intros k v. simpl. by rewrite lookup_empty.
Qed.

Lemma construction_success_sound (a : string) (s : State) cl s1 :
  ConstructorsSound →
  getProjectTypedClient a s = Returns (cl, None) s1 → is_Some cl.
Proof.
  intros Hsound Heq.
  destruct (getProjectTypedClient_spec a s)
    as (cl' & err & w & evs & Heq' & _ & Hsucc & _).
  rewrite Heq in Heq'. injection Heq' as <- <- _.
  destruct (Hsucc eq_refl) as (ctor & p & eo & w1 & w2 & Hin & Hcall).
  by eapply Hsound.
Qed.

Lemma wellFormed_get (meta : ObjectMeta) (s : State) :
  ConstructorsSound →
  wellFormed s →
  ∃ cl s', get meta s = Returns (Some cl) s'
           ∧ wellFormed s' ∧ getCase meta s (Some cl) s'.
Proof.
  intros Hsound (Hm & Hdef & Hent).
  destruct (get_cases meta s Hm) as (r & s' & Hget & Hcase).
  assert (is_Some r ∧ wellFormed s') as [[cl ->] Hwf]; [|by eauto].
  destruct Hcase as [Hd|mc Hd Hhit|cl e w evs a Hd Hmiss Hcons Hevs
                    |cl w evs a Hd Hmiss Hcons Hevs].
  - done.
  - split; [by eapply Hent|done].
  - done.
  - assert (is_Some cl) by (by eapply construction_success_sound).
    split; [done|]. repeat split; [done..|].
    intros k v. simpl.
    destruct (decide (clientKey (fac s) a = k)) as [<-|Hne].
    + rewrite lookup_insert_eq. by intros [= <-].
    + rewrite lookup_insert_ne by done. apply Hent.
Qed.

Lemma wellFormed_evolves (s s' : State) :
  ConstructorsSound → wellFormed s → evolves s s' → wellFormed s'.
Proof.
  intros Hsound Hwf. induction 1 as [|s1 meta r s2 _ IH Hget|s1 w _ IH].
  - done.
  - destruct (wellFormed_get meta s1 Hsound IH) as (cl & s2' & Hget' & Hwf' & _).
    rewrite Hget in Hget'. by injection Hget' as _ <-.
  - done.
Qed.

(** C1, with the two conditions it needs. In every state a factory made
    with a default client that is not nil can be in between calls, and for
    every metadata, [get] returns (it neither waits nor panics), its result
    is a client and not nil, and there is no error in what it returns. The
    client is the default one on the default-scope path, the cached one on
    a hit, the one just built and stored on a successful construction, and
    the default one again when the construction fails. The typed
    constructors are taken to keep their contract: no error means a
    client. Without either condition [get] can return nil. *)
Theorem get_always_returns_a_client
    (kind : string) (d : ServiceClient) (w0 : World)
    (s : State) (meta : ObjectMeta) :
  ConstructorsSound →
  evolves (initial kind (Some d) w0) s →
  ∃ (cl : ServiceClient) (s' : State),
    get meta s = Returns (Some cl) s'
    ∧ let key :=
        clientKey (fac s) (index (Labels meta) CustomProjectAliasLabel) in
      (defaultScoped meta = true ∧ cl = d ∧ s' = s)
      ∨ (defaultScoped meta = false
         ∧ clients (fac s) !! key = Some (Some cl)
         ∧ clients (fac s') = clients (fac s))
      ∨ (defaultScoped meta = false
         ∧ clients (fac s) !! key = None
         ∧ clients (fac s') = <[key := Some cl]> (clients (fac s))
         ∧ failures (trace s') = failures (trace s))
      ∨ (defaultScoped meta = false
         ∧ clients (fac s) !! key = None
         ∧ cl = d
         ∧ clients (fac s') = clients (fac s)
         ∧ failures (trace s') = failures (trace s) + 1).
Proof.
  intros Hsound Hev.
  assert (Hwf : wellFormed s).
  { eapply wellFormed_evolves; [done| |done]. apply wellFormed_initial. }
  destruct (evolves_fields _ _ Hev) as (_ & _ & Hdef). simpl in Hdef.
  destruct (wellFormed_get meta s Hsound Hwf) as (cl & s' & Hget & _ & Hcase).
  exists cl, s'. split; [done|]. simpl.
  inversion Hcase as [Hd Hr Hs|mc Hd Hhit Hr Hs|cl' e w evs a Hd Hmiss Hcons Hevs Hr Hs
                     |cl' w evs a Hd Hmiss Hcons Hevs Hr Hs].
  - left. split; [done|]. split; [congruence|done].
  - right; left. by subst.
  - right; right; right. subst. simpl.
    repeat split; [done|done|congruence|].
    by rewrite failures_call.
  - right; right; left. subst. simpl.
    repeat split; [done|done|].
    rewrite failures_call by done. unfold failures at 2. simpl. lia.
Qed.

(** C9. The cache only grows. A call of [get] that returns leaves every
    entry of the map as it was, or binds an absent key to the client it
    returns, which happens only after a successful construction for that
    key; and along any sequence of calls (and changes of the outside
    world) a key that is bound stays bound to the same client. *)
Theorem cache_grows_monotonically :
  (∀ (meta : ObjectMeta) (s : State) r s',
     get meta s = Returns r s' →
     ∀ k,
       clients (fac s') !! k = clients (fac s) !! k
       ∨ (clients (fac s) !! k = None
          ∧ clients (fac s') !! k = Some r
          ∧ k = clientKey (fac s) (index (Labels meta) CustomProjectAliasLabel)
          ∧ ∃ s1, getProjectTypedClient
                    (index (Labels meta) CustomProjectAliasLabel) (locked s)
                  = Returns (r, None) s1))
  ∧ (∀ (s s' : State),
       evolves s s' →
       ∀ k v, clients (fac s) !! k = Some v → clients (fac s') !! k = Some v).
Proof.
  split; [|apply evolves_mono].
  intros meta s r s' Hget k.
  apply get_returns_inv in Hget as [(_ & _ & ->)|(_ & _ & Hcase)]; [by left|].
  destruct Hcase as [Hd|mc Hd Hhit|cl e w evs a Hd Hmiss Hcons Hevs
                    |cl w evs a Hd Hmiss Hcons Hevs]; try by left.
  simpl. destruct (decide (clientKey (fac s) a = k)) as [<-|Hne].
  - right. rewrite lookup_insert_eq. repeat split; [done|]. by eexists.
  - left. by rewrite lookup_insert_ne.
Qed.

(** C4. When the tenant-alias label is not empty, the key is not cached
    and the construction fails ([getProjectTypedClient] returns an error,
    as it does when the configuration cannot be loaded, when the provider
    handle cannot be built and when the typed constructor fails), [get]
    returns the default client, leaves the map as it was (the key stays absent) and frees the
    mutex; the loader ran once. The next call with the same alias, whatever
    the outside world has become, runs the construction again from its
    first step: the loader is called once more, and the call returns what
    this new construction gives (the new client, now stored, or the default
    client again). *)
Theorem failed_construction_falls_back_and_retries
    (meta : ObjectMeta) (s : State) cl e s1 :
  let a := index (Labels meta) CustomProjectAliasLabel in
  let key := clientKey (fac s) a in
  let path := configPath (fac s) a in
  defaultScoped meta = false →
  m (fac s) = false →
  clients (fac s) !! key = None →
  getProjectTypedClient a (locked s) = Returns (cl, Some e) s1 →
  ((∀ cfg e1 s2,
      getProjectConfig a (locked s) = Returns (cfg, Some e1) s2 →
      ∃ e' s3, getProjectTypedClient a (locked s) = Returns (None, Some e') s3)
   ∧ (∀ cfg s2 p ok e1 s3,
        getProjectConfig a (locked s) = Returns (Some cfg, None) s2 →
        getProjectProvider (Some cfg) s2 = Returns (p, ok, Some e1) s3 →
        ∃ e' s4, getProjectTypedClient a (locked s) = Returns (None, Some e') s4)
   ∧ (∀ cfg s2 p ok s3 ev ctor format cl1 e1 w,
        getProjectConfig a (locked s) = Returns (Some cfg, None) s2 →
        getProjectProvider (Some cfg) s2 = Returns (p, ok, None) s3 →
        constructorOf (clientType (fac s)) = Some (ev, ctor, format) →
        ctor p (epOptsOf cfg) (world s3) = ((cl1, Some e1), w) →
        ∃ e' s4, getProjectTypedClient a (locked s) = Returns (None, Some e') s4))
  ∧ ∃ s',
    get meta s = Returns (defaultClient (fac s)) s'
    ∧ clients (fac s') = clients (fac s)
    ∧ clients (fac s') !! key = None
    ∧ m (fac s') = false
    ∧ loaderCalls path (trace s') = loaderCalls path (trace s) + 1
    ∧ ∀ w,
        let s2 := {| fac := fac s'; world := w; trace := trace s' |} in
        ∃ r s'' cl2 err2 s3,
          get meta s2 = Returns r s''
          ∧ getProjectTypedClient a (locked s2) = Returns (cl2, err2) s3
          ∧ loaderCalls path (trace s'') = loaderCalls path (trace s') + 1
          ∧ (err2 = None →
             r = cl2 ∧ clients (fac s'') = <[key := cl2]> (clients (fac s)))
          ∧ (err2 ≠ None →
             r = defaultClient (fac s) ∧ clients (fac s'') = clients (fac s)).
Proof.
  intros a key path Hd Hm Hmiss Hfail.
  split; [exact (construction_fails_at_any_step a (locked s))|].
  destruct (get_cases meta s Hm) as (r & s' & Hget & Hcase).
  destruct Hcase as [Hd'|mc _ Hhit|cl' e' w evs a' _ _ Hcons Hevs
                    |cl' w evs a' _ _ Hcons Hevs]; subst a key path.
  - exfalso. congruence.
  - exfalso. congruence.
  - eexists. split; [exact Hget|]. simpl.
    repeat split; [done|done|..].
    { rewrite loaderCalls_call by done. rewrite decide_True by done.
      unfold loaderCalls at 2. simpl. lia. }
    intros w2. set (s2 := {| fac := fac s; world := w2; trace := _ |}).
    destruct (get_cases meta s2 Hm) as (r2 & s'' & Hget2 & Hcase2).
    exists r2, s''.
    destruct Hcase2 as [Hd'|mc _ Hhit|cl2 e2 w3 evs2 a2 _ _ Hcons2 Hevs2
                       |cl2 w3 evs2 a2 _ _ Hcons2 Hevs2].
    + exfalso. simpl in Hd'. congruence.
    + simpl in Hhit. by rewrite Hmiss in Hhit.
    + eexists cl2, (Some e2), _. split; [done|]. split; [exact Hcons2|].
      simpl. split.
      { rewrite loaderCalls_call by done. rewrite decide_True by done.
        unfold loaderCalls at 2. simpl. lia. }
      done.
    + eexists cl2, None, _. split; [done|]. split; [exact Hcons2|].
      simpl. split.
      { rewrite loaderCalls_call by done. rewrite decide_True by done.
        unfold loaderCalls at 2. simpl. lia. }
      done.
  - fold a' in Hfail. rewrite Hfail in Hcons. discriminate.
Qed.

Lemma get_bound_no_load (meta : ObjectMeta) (s : State) r s' a v :
  clients (fac s) !! clientKey (fac s) a = Some v →
  get meta s = Returns r s' →
  loaderCalls (configPath (fac s) a) (trace s')
  = loaderCalls (configPath (fac s) a) (trace s).
Proof.
  intros Hbound Hget.
  apply get_returns_inv in Hget as [(_ & _ & ->)|(_ & _ & Hcase)]; [done|].
  assert (Hother : ∀ a', clients (fac s) !! clientKey (fac s) a' = None →
                         configPath (fac s) a' ≠ configPath (fac s) a).
  { intros a' Hmiss Heq. apply configPath_inj in Heq. subst a'. congruence. }
  destruct Hcase as [Hd|mc Hd Hhit|cl e w evs a' Hd Hmiss Hcons Hevs
                    |cl w evs a' Hd Hmiss Hcons Hevs]; simpl.
  - done.
  - rewrite loaderCalls_app. unfold loaderCalls at 2. simpl. lia.
  - rewrite loaderCalls_call by done.
    rewrite decide_False by (by apply Hother).
    unfold loaderCalls at 2. simpl. lia.
  - rewrite loaderCalls_call by done.
    rewrite decide_False by (by apply Hother).
    unfold loaderCalls at 2. simpl. lia.
Qed.

Lemma evolves_bound_no_load (s1 s2 : State) a v :
  evolves s1 s2 →
  clients (fac s1) !! clientKey (fac s1) a = Some v →
  clients (fac s2) !! clientKey (fac s2) a = Some v
  ∧ loaderCalls (configPath (fac s1) a) (trace s2)
    = loaderCalls (configPath (fac s1) a) (trace s1).
Proof.
  intros Hev Hbound.
  induction Hev as [|s3 meta r s4 Hev IH Hget|s3 w Hev IH]; [done| |done].
  destruct IH as [Hb3 Hl3].
  destruct (evolves_fields _ _ (evolves_get _ _ _ _ _ Hev Hget)) as (_ & Hk4 & _).
  destruct (evolves_fields _ _ Hev) as (_ & Hk3 & _).
  assert (Hkey : ∀ c c' : clientsFactory,
            clientType c = clientType c' → clientKey c a = clientKey c' a).
  { intros c c' Hc. unfold clientKey. by rewrite Hc. }
  split.
  - rewrite (Hkey (fac s4) (fac s3)) by congruence.
    eapply get_step_mono; [exact Hget|done].
  - rewrite <- Hl3.
    exact (get_bound_no_load meta s3 r s4 a v Hb3 Hget).
Qed.

(** C5. When a call of [get] for a non-empty alias has built a client and
    stored it under the key of the alias, the client it returns is the one
    stored, the loader ran once in that call, and every later call with the
    same metadata, after any number of other calls and changes of the
    outside world, returns that same client: it only takes and frees the
    mutex, calls neither the loader nor a constructor, and leaves the
    outside world alone. From the first call on the file of the alias has
    been opened exactly once. *)
Theorem second_get_returns_cached_client
    (meta : ObjectMeta) (s : State) r s' tc :
  let a := index (Labels meta) CustomProjectAliasLabel in
  let key := clientKey (fac s) a in
  let path := configPath (fac s) a in
  defaultScoped meta = false →
  get meta s = Returns r s' →
  clients (fac s) !! key = None →
  clients (fac s') !! key = Some tc →
  r = tc
  ∧ loaderCalls path (trace s') = loaderCalls path (trace s) + 1
  ∧ ∀ s2,
      evolves s' s2 →
      let s3 := {| fac := fac s2; world := world s2;
                   trace := trace s2 ++ [EvLock; EvUnlock] |} in
      get meta s2 = Returns tc s3
      ∧ loaderCalls path (trace s3) = loaderCalls path (trace s) + 1
      ∧ constructorCalls (trace s3) = constructorCalls (trace s2).
Proof.
  intros a key path Hd Hget Hmiss Hstored.
  apply get_returns_inv in Hget as Hinv.
  destruct Hinv as [(Hd' & _)|(_ & Hm & Hcase)]; [congruence|].
  destruct Hcase as [Hd'|mc _ Hhit|cl e w evs a' _ _ Hcons Hevs
                    |cl w evs a' _ _ Hcons Hevs]; subst a key path.
  - congruence.
  - congruence.
  - simpl in Hstored. congruence.
  - simpl in Hstored. fold a' in Hstored. rewrite lookup_insert_eq in Hstored.
    injection Hstored as ->.
    assert (Hload : loaderCalls (configPath (fac s) a')
              (trace s ++ EvLock :: EvOpen (configPath (fac s) a') :: evs
               ++ [EvStore (clientKey (fac s) a') tc; EvUnlock])
            = loaderCalls (configPath (fac s) a') (trace s) + 1).
    { rewrite loaderCalls_call by done. rewrite decide_True by done.
      unfold loaderCalls at 2. simpl. lia. }
    split; [done|]. split; [exact Hload|].
    intros s2 Hev s3.
    set (s1 := {| fac := set_clients _ (fac s); world := w; trace := _ |}) in *.
    assert (Hb1 : clients (fac s1) !! clientKey (fac s1) a' = Some tc).
    { subst s1. simpl. apply lookup_insert_eq. }
    destruct (evolves_bound_no_load s1 s2 a' tc Hev Hb1) as [Hb2 Hl2].
    destruct (evolves_fields _ _ Hev) as (Hm2 & _ & _).
    assert (Hm2' : m (fac s2) = false) by (rewrite Hm2; exact Hm).
    destruct (get_cases meta s2 Hm2') as (r2 & s4 & Hget2 & Hcase2).
    destruct Hcase2 as [Hd'|mc _ Hhit|cl2 e2 w3 evs2 a2 _ Hmiss2 _ _
                       |cl2 w3 evs2 a2 _ Hmiss2 _ _].
    + congruence.
    + fold a' in Hhit. rewrite Hb2 in Hhit. injection Hhit as <-.
      split; [exact Hget2|]. subst s3. simpl. split.
      * rewrite loaderCalls_app. unfold loaderCalls at 2. simpl.
        assert (Hl : loaderCalls (configPath (fac s) a') (trace s2)
                     = loaderCalls (configPath (fac s) a') (trace s1))
          by exact Hl2.
        fold a'. rewrite Hl. subst s1. cbn [trace]. rewrite Hload. lia.
      * rewrite constructorCalls_app. unfold constructorCalls at 2. simpl. lia.
    + subst a2. fold a' in Hmiss2. congruence.
    + subst a2. fold a' in Hmiss2. congruence.
Qed.

Lemma get_unsupported (meta : ObjectMeta) (s : State) :
  supportedKind (clientType (fac s)) = false →
  m (fac s) = false →
  clients (fac s) = ∅ →
  ∃ s', get meta s = Returns (defaultClient (fac s)) s'
        ∧ clients (fac s') = ∅.
Proof.
  intros Hk Hm Hempty.
  destruct (get_cases meta s Hm) as (r & s' & Hget & Hcase).
  destruct Hcase as [Hd|mc Hd Hhit|cl e w evs a Hd Hmiss Hcons Hevs
                    |cl w evs a Hd Hmiss Hcons Hevs].
  - by exists s.
  - rewrite Hempty, lookup_empty in Hhit. done.
  - by eexists.
  - destruct (getProjectTypedClient_spec a (locked s))
      as (cl' & err & w' & evs' & Heq & _ & _ & _ & Hunk).
    rewrite Hcons in Heq. injection Heq as _ <- _.
    by destruct (Hunk Hk).
Qed.

(** C7. A factory whose kind is none of compute, network, loadbalancer,
    routes and secrets never constructs a client: getProjectTypedClient
    returns a nil client and an error for every alias, and once the
    configuration is read and the provider handle built that error is
    "unknown client type" followed by the kind. On such a factory, made by
    newClientsFactory, every call of [get] returns the default client and
    the map stays empty. *)
Theorem unsupported_kind_gives_default (kind : string) :
  supportedKind kind = false →
  (∀ (a : string) (s : State),
     clientType (fac s) = kind →
     (∃ e s', getProjectTypedClient a s = Returns (None, Some e) s')
     ∧ ∀ cfg s1 p ok s2,
         getProjectConfig a s = Returns (Some cfg, None) s1 →
         getProjectProvider (Some cfg) s1 = Returns (p, ok, None) s2 →
         getProjectTypedClient a s =
           Returns (None, Some ("unknown client type " +:+ kind)) s2)
  ∧ (∀ d w0 (s : State) (meta : ObjectMeta),
       evolves (initial kind d w0) s →
       ∃ s', get meta s = Returns d s' ∧ clients (fac s') = ∅).
Proof.
  intros Hk. split.
  - intros a s <-. split.
    + destruct (getProjectTypedClient_spec a s)
        as (cl & err & w & evs & Heq & _ & _ & Hnil & Hunk).
      destruct err as [e|]; [|by destruct (Hunk Hk)].
      rewrite (Hnil ltac:(done)) in Heq. by eexists _, _.
    + intros cfg s1 p ok s2 Hc Hp.
      rewrite (getProjectTypedClient_switch _ _ _ _ _ _ _ Hc Hp).
      by rewrite (constructorOf_supported _ Hk).
  - intros d w0 s meta Hev.
    assert (Hinv : m (fac s) = false ∧ clientType (fac s) = kind
                   ∧ defaultClient (fac s) = d ∧ clients (fac s) = ∅).
    { induction Hev as [|s1 meta' r s2 _ IH Hget|s1 w _ IH]; [done| |done].
      destruct IH as (Hm & Hkind & Hd & Hempty).
      destruct (get_unsupported meta' s1) as (s2' & Hget' & Hempty');
        [by rewrite Hkind|done|done|].
      rewrite Hget in Hget'. injection Hget' as -> <-.
      apply get_returns_inv in Hget as [(_ & _ & ->)|(_ & _ & Hcase)]; [done|].
      destruct (getCase_frame _ _ _ _ Hcase) as (Hm2 & Hk2 & Hd2).
      repeat split; congruence. }
    destruct Hinv as (Hm & Hkind & Hd & Hempty).
    destruct (get_unsupported meta s) as (s' & Hget & Hempty');
      [by rewrite Hkind|done|done|].
    exists s'. by rewrite <- Hd.
Qed.

End Runs.

(** ** Goroutines *)

Section Concurrent.
Context `{Ext : Externals}.

Lemma stepThread_cases (pc : Pc) (s : State) pc' s' :
  stepThread pc s = Returns pc' s' → threadStep pc s pc' s'.
Proof.
  destruct pc as [meta|a|a|a|a tc|r|r]; simpl;
    unfold mbind, M_bind, bind, this, mret, M_ret, ret.
  - destruct (defaultScoped meta) eqn:Hd; intros [= <- <-]; by constructor.
  - unfold Lock. destruct (m (fac s)) eqn:Hm; [done|].
    intros [= <- <-]. by constructor.
  - destruct (clients (fac s) !! clientKey (fac s) a) eqn:Hl;
      intros [= <- <-]; by constructor.
  - destruct (getProjectTypedClient_spec a s)
      as (cl & err & w & evs & Heq & Hevs & _).
    rewrite Heq. destruct err as [e|].
    + unfold klog_Errorf, emit. simpl. intros [= <- <-].
      by eapply step_failed.
    + intros [= <- <-]. by eapply step_built.
  - unfold store. intros [= <- <-]. constructor.
  - unfold Unlock. destruct (m (fac s)) eqn:Hm; [|done].
    intros [= <- <-]. by constructor.
  - done.
Qed.

Lemma stepThread_enabled (pc : Pc) (s : State) :
  isFinished pc = false →
  (∀ a, pc = AtLock a → m (fac s) = false) →
  (∀ r, pc = AtUnlock r → m (fac s) = true) →
  ∃ pc' s', stepThread pc s = Returns pc' s'.
Proof.
  intros Hfin Hlock Hunlock.
  destruct pc as [meta|a|a|a|a tc|r|r]; simpl;
    unfold mbind, M_bind, bind, this, mret, M_ret, ret.
  - destruct (defaultScoped meta); by eexists _, _.
  - unfold Lock. rewrite (Hlock a eq_refl). by eexists _, _.
  - destruct (clients (fac s) !! clientKey (fac s) a); by eexists _, _.
  - destruct (getProjectTypedClient_spec a s)
      as (cl & err & w & evs & Heq & Hevs & _).
    rewrite Heq. destruct err as [e|]; by eexists _, _.
  - by eexists _, _.
  - unfold Unlock. rewrite (Hunlock r eq_refl). by eexists _, _.
  - done.
Qed.

Lemma schedule_inv (i : nat) (cf cf' : Conf) :
  schedule i cf = Some cf' →
  ∃ pc pc',
    threads cf !! i = Some pc
    ∧ threadStep pc (shared cf) pc' (shared cf')
    ∧ threads cf' = <[i := pc']> (threads cf).
Proof.
  unfold schedule. destruct (threads cf !! i) as [pc|] eqn:Hi; [|done].
  destruct (stepThread pc (shared cf)) as [pc' s'| |] eqn:Hstep; [|done..].
  intros [= <-]. exists pc, pc'. split; [done|]. split; [|done].
  by apply stepThread_cases.
Qed.

(** *** Lists of goroutines updated in place *)

Lemma lookup_insert_cases (ts : list Pc) (i j : nat) (pc' x : Pc) :
  <[i := pc']> ts !! j = Some x →
  (j = i ∧ x = pc') ∨ (j ≠ i ∧ ts !! j = Some x).
Proof.
  intros H. destruct (decide (j = i)) as [->|Hne].
  - left. split; [done|].
    destruct (decide (i < length ts)) as [Hlt|Hge].
    + rewrite list_lookup_insert_eq in H by done. congruence.
    + apply lookup_lt_Some in H. rewrite length_insert in H. lia.
  - right. split; [done|]. by rewrite list_lookup_insert_ne in H.
Qed.

Lemma lookup_insert_here (ts : list Pc) (i : nat) (pc pc' : Pc) :
  ts !! i = Some pc → <[i := pc']> ts !! i = Some pc'.
Proof. intros H. apply list_lookup_insert_eq. by eapply lookup_lt_Some. Qed.

Lemma holderOf_same (ts : list Pc) h i pc pc' :
  holderOf ts h → ts !! i = Some pc → inCS pc' = inCS pc →
  holderOf (<[i := pc']> ts) h.
Proof.
  intros [Hex Hh] Hi Hcs. split.
  - intros j Hj. destruct (Hex j Hj) as [x Hx].
    destruct (decide (j = i)) as [->|Hne].
    + rewrite (lookup_insert_here _ _ _ _ Hi). by eexists.
    + rewrite list_lookup_insert_ne by done. by eexists.
  - intros j x [[-> ->]|[Hne Hj]]%lookup_insert_cases.
    + rewrite Hcs. by apply Hh.
    + by apply Hh.
Qed.

Lemma holderOf_acquire (ts : list Pc) i pc pc' :
  holderOf ts None → ts !! i = Some pc → inCS pc' = true →
  holderOf (<[i := pc']> ts) (Some i).
Proof.
  intros [Hex Hh] Hi Hcs. split.
  - intros j [= <-]. rewrite (lookup_insert_here _ _ _ _ Hi). by eexists.
  - intros j x [[-> ->]|[Hne Hj]]%lookup_insert_cases; [done|].
    split.
    + intros Hx. by apply (Hh j x Hj) in Hx.
    + intros [= <-]. done.
Qed.

Lemma holderOf_release (ts : list Pc) i pc pc' :
  holderOf ts (Some i) → ts !! i = Some pc → inCS pc' = false →
  holderOf (<[i := pc']> ts) None.
Proof.
  intros [Hex Hh] Hi Hcs. split; [done|].
  intros j x [[-> ->]|[Hne Hj]]%lookup_insert_cases.
  - rewrite Hcs. done.
  - split; [|done]. intros Hx. apply (Hh j x Hj) in Hx. congruence.
Qed.

Lemma holderOf_others (ts : list Pc) h i pc :
  holderOf ts h → ts !! i = Some pc → inCS pc = true →
  ∀ j x, j ≠ i → ts !! j = Some x → inCS x = false.
Proof.
  intros [_ Hh] Hi Hcs j x Hne Hj.
  destruct (inCS x) eqn:Hx; [|done].
  apply (Hh i pc Hi) in Hcs. apply (Hh j x Hj) in Hx. congruence.
Qed.

(** *** Counting the events of one step *)

Lemma failures_one (ev : Event) :
  failures [ev] = if isFailure ev then 1 else 0.
Proof. unfold failures. rewrite filter_cons. by destruct (isFailure ev). Qed.

Lemma stores_one key (ev : Event) :
  stores key [ev] = if isStore key ev then 1 else 0.
Proof. unfold stores. rewrite filter_cons. by destruct (isStore key ev). Qed.

Lemma failures_built (tr : list Event) path (evs : list Event) :
  forallb constructionEvent evs = true →
  failures (tr ++ EvOpen path :: evs) = failures tr.
Proof.
  intros Hevs. change (EvOpen path :: evs) with ([EvOpen path] ++ evs).
  rewrite !failures_app, failures_one, (failures_construction evs Hevs).
  simpl. lia.
Qed.

Lemma stores_built key (tr : list Event) path (evs : list Event) :
  forallb constructionEvent evs = true →
  stores key (tr ++ EvOpen path :: evs) = stores key tr.
Proof.
  intros Hevs. change (EvOpen path :: evs) with ([EvOpen path] ++ evs).
  rewrite !stores_app, stores_one, (stores_construction key evs Hevs).
  simpl. lia.
Qed.

Lemma loaderCalls_built (tr : list Event) path (evs : list Event) :
  forallb constructionEvent evs = true →
  loaderCalls path (tr ++ EvOpen path :: evs) = loaderCalls path tr + 1.
Proof.
  intros Hevs. change (EvOpen path :: evs) with ([EvOpen path] ++ evs).
  rewrite !loaderCalls_app, loaderCalls_open, decide_True by done.
  rewrite (loaderCalls_construction path evs Hevs). lia.
Qed.

Lemma loaderCalls_quiet path (tr : list Event) (ev : Event) :
  (∀ p, ev ≠ EvOpen p) → loaderCalls path (tr ++ [ev]) = loaderCalls path tr.
Proof.
  intros Hev. rewrite loaderCalls_app. unfold loaderCalls at 2.
  rewrite filter_cons, decide_False by apply Hev. simpl. lia.
Qed.

(** *** The counts are kept by every step *)

Lemma pend_kept (a : string) (ts : list Pc) i pc pc' (pend : nat) :
  ts !! i = Some pc →
  (∀ x tc, pc ≠ AtStore x tc) →
  (∀ x tc, pc' ≠ AtStore x tc) →
  (pend = 0 ∧ (∀ j x tc, ts !! j ≠ Some (AtStore x tc))
   ∨ pend = 1 ∧ ∃ j tc, ts !! j = Some (AtStore a tc)) →
  (pend = 0 ∧ (∀ j x tc, <[i := pc']> ts !! j ≠ Some (AtStore x tc))
   ∨ pend = 1 ∧ ∃ j tc, <[i := pc']> ts !! j = Some (AtStore a tc)).
Proof.
  intros Hi Hold Hnew [[-> Hnone]|[-> (j & tc & Hj)]].
  - left. split; [done|].
    intros j x tc [[-> Heq]|[Hne Hj]]%lookup_insert_cases.
    + by eapply Hnew.
    + by eapply Hnone.
  - right. split; [done|]. exists j, tc.
    destruct (decide (j = i)) as [->|Hne].
    + rewrite Hi in Hj. injection Hj as ->. by edestruct Hold.
    + by rewrite list_lookup_insert_ne.
Qed.

Lemma Counts_step (s0 : State) (a : string) (ts : list Pc) (s : State)
    i pc pc' s' h :
  clientType (fac s) = clientType (fac s0) →
  defaultClient (fac s) = defaultClient (fac s0) →
  pcFor a pc →
  holderOf ts h →
  ts !! i = Some pc →
  threadStep pc s pc' s' →
  Counts s0 a ts s →
  Counts s0 a (<[i := pc']> ts) s'.
Proof.
  intros Hk Hd Hpc Hhold Hi Hstep
    (nf & stored & pend & Hf & Hs & Hl & Hst & Hpe & Habs & Hres).
  assert (Hkey : ∀ x, clientKey (fac s) x = clientKey (fac s0) x).
  { intros x. unfold clientKey. by rewrite Hk. }
  unfold Counts.
  destruct Hstep as [meta s Hdef|meta s Hdef|a0 s Hm|a0 s mc Hhit|a0 s Hmiss
                    |a0 s cl e w evs Hcons Hevs|a0 s cl w evs Hcons Hevs
                    |a0 tc s|r s Hm]; simpl in Hpc.
  - (* the default path: not for this alias *)
    destruct Hpc as [Hpc _]. congruence.
  - exists nf, stored, pend. repeat split; [done..| | |].
    + by eapply pend_kept.
    + intros j x [[-> ->]|[Hne Hj]]%lookup_insert_cases; [done|by eapply Habs].
    + intros j x r [[-> ->]|[Hne Hj]]%lookup_insert_cases; [done|by eapply Hres].
  - exists nf, stored, pend. simpl.
    rewrite failures_app, stores_app, loaderCalls_quiet by done.
    rewrite failures_one, stores_one. simpl.
    repeat split; [lia|lia|done|done| | |].
    + by eapply pend_kept.
    + intros j x [[-> ->]|[Hne Hj]]%lookup_insert_cases; [done|by eapply Habs].
    + intros j x r [[-> ->]|[Hne Hj]]%lookup_insert_cases; [done|by eapply Hres].
  - subst a0. rewrite Hkey in Hhit.
    exists nf, stored, pend. repeat split; [done..| | |].
    + by eapply pend_kept.
    + intros j x [[-> ->]|[Hne Hj]]%lookup_insert_cases; [done|by eapply Habs].
    + intros j x r [[-> ->]|[Hne Hj]]%lookup_insert_cases; [|by eapply Hres].
      simpl. intros [= <-]. by left.
  - subst a0. rewrite Hkey in Hmiss.
    exists nf, stored, pend. repeat split; [done..| | |].
    + by eapply pend_kept.
    + intros j x [[-> ->]|[Hne Hj]]%lookup_insert_cases; [done|by eapply Habs].
    + intros j x r [[-> ->]|[Hne Hj]]%lookup_insert_cases; [done|by eapply Hres].
  - subst a0. exists (S nf), stored, pend. simpl.
    rewrite failures_app, stores_app, loaderCalls_quiet by done.
    rewrite failures_one, stores_one. simpl.
    rewrite failures_built, stores_built by done.
    change (configPath (fac s) a) with (configPath (fac s0) a).
    rewrite loaderCalls_built by done.
    repeat split; [lia|lia|lia|done| | |].
    + by eapply pend_kept.
    + intros j x [[-> ->]|[Hne Hj]]%lookup_insert_cases; [done|by eapply Habs].
    + intros j x r [[-> ->]|[Hne Hj]]%lookup_insert_cases.
      * simpl. intros [= <-]. right. split; [done|lia].
      * intros Hr. destruct (Hres j x r Hj Hr) as [?|[? ?]]; [by left|].
        right. split; [done|lia].
  - subst a0.
    assert (pend = 0) as ->.
    { destruct Hpe as [[-> _]|[_ (j & tc & Hj)]]; [done|].
      assert (j ≠ i) as Hne by (intros ->; congruence).
      by pose proof (holderOf_others ts h i _ Hhold Hi eq_refl j _ Hne Hj). }
    exists nf, stored, 1. simpl.
    rewrite failures_built, stores_built by done.
    change (configPath (fac s) a) with (configPath (fac s0) a).
    rewrite loaderCalls_built by done.
    repeat split; [done|done|lia|done| | |].
    + right. split; [done|]. exists i, cl. by eapply lookup_insert_here.
    + intros j x [[-> ->]|[Hne Hj]]%lookup_insert_cases; [|by eapply Habs].
      intros _. by eapply (Habs i).
    + intros j x r [[-> ->]|[Hne Hj]]%lookup_insert_cases; [done|by eapply Hres].
  - subst a0. rewrite Hkey.
    assert (Hnone : clients (fac s) !! clientKey (fac s0) a = None)
      by (by eapply (Habs i)).
    assert (stored = 0) as ->.
    { destruct Hst as [[-> _]|[_ [? Hsome]]]; [done|congruence]. }
    assert (pend = 1) as ->.
    { destruct Hpe as [[_ Hno]|[-> _]]; [|done]. by edestruct Hno. }
    exists nf, 1, 0. simpl.
    rewrite failures_app, stores_app, loaderCalls_quiet by done.
    rewrite failures_one, stores_one. simpl. rewrite String.eqb_refl.
    rewrite lookup_insert_eq.
    repeat split; [lia|lia|lia|by right| | |].
    + left. split; [done|].
      intros j x tc' [[-> Heq]|[Hne Hj]]%lookup_insert_cases; [done|].
      by pose proof (holderOf_others ts h i _ Hhold Hi eq_refl j _ Hne Hj).
    + intros j x [[-> ->]|[Hne Hj]]%lookup_insert_cases; [done|].
      intros Hx.
      pose proof (holderOf_others ts h i _ Hhold Hi eq_refl j _ Hne Hj) as Hcs.
      by destruct x.
    + intros j x r [[-> ->]|[Hne Hj]]%lookup_insert_cases.
      * simpl. intros [= <-]. by left.
      * intros Hr. destruct (Hres j x r Hj Hr) as [Hsome|?]; [congruence|].
        by right.
  - exists nf, stored, pend. simpl.
    rewrite failures_app, stores_app, loaderCalls_quiet by done.
    rewrite failures_one, stores_one. simpl.
    repeat split; [lia|lia|done|done| | |].
    + by eapply pend_kept.
    + intros j x [[-> ->]|[Hne Hj]]%lookup_insert_cases; [done|by eapply Habs].
    + intros j x r0 [[-> ->]|[Hne Hj]]%lookup_insert_cases; [|by eapply Hres].
      simpl. intros [= <-]. by eapply (Hres i).
Qed.

(** *** The invariant *)

Lemma threadStep_frame (pc : Pc) (s : State) pc' s' :
  threadStep pc s pc' s' →
  clientType (fac s') = clientType (fac s)
  ∧ defaultClient (fac s') = defaultClient (fac s).
Proof. by destruct 1. Qed.

Lemma threadStep_pcFor (a : string) (pc : Pc) (s : State) pc' s' :
  threadStep pc s pc' s' → pcFor a pc → pcFor a pc'.
Proof. destruct 1; simpl; try done. by intros [_ ?]. Qed.

Lemma threadStep_rank (pc : Pc) (s : State) pc' s' :
  threadStep pc s pc' s' → rank pc' < rank pc.
Proof. destruct 1; simpl; lia. Qed.

Lemma threadStep_holder (ts : list Pc) i (pc : Pc) (s : State) pc' s' h :
  threadStep pc s pc' s' →
  ts !! i = Some pc →
  m (fac s) = bool_decide (is_Some h) →
  holderOf ts h →
  ∃ h' : option nat,
    m (fac s') = bool_decide (is_Some h') ∧ holderOf (<[i := pc']> ts) h'.
Proof.
  intros Hstep Hi Hm Hhold.
  destruct Hstep as [meta s Hdef|meta s Hdef|a0 s Hfree|a0 s mc Hhit|a0 s Hmiss
                    |a0 s cl e w evs Hcons Hevs|a0 s cl w evs Hcons Hevs
                    |a0 tc s|r s Hheld];
    try (exists h; split; [exact Hm|by eapply holderOf_same]).
  - destruct h as [j|].
    { rewrite Hfree in Hm. by rewrite bool_decide_eq_true_2 in Hm. }
    exists (Some i). split; [done|]. by eapply holderOf_acquire.
  - assert (h = Some i) as ->.
    { destruct Hhold as [_ Hh]. by apply (Hh i _ Hi). }
    exists None. split; [done|]. by eapply holderOf_release.
Qed.

Lemma Inv_step (s0 : State) (a : string) (i : nat) (cf cf' : Conf) :
  Inv s0 a cf → schedule i cf = Some cf' → Inv s0 a cf'.
Proof.
  intros (Hk & Hd & Hpc & (h & Hm & Hhold) & Hcounts) Hsched.
  apply schedule_inv in Hsched as (pc & pc' & Hi & Hstep & Hts).
  destruct (threadStep_frame _ _ _ _ Hstep) as [Hk' Hd'].
  unfold Inv. rewrite Hts. repeat split.
  - congruence.
  - congruence.
  - intros j x [[-> ->]|[Hne Hj]]%lookup_insert_cases.
    + eapply threadStep_pcFor; [exact Hstep|]. by eapply Hpc.
    + by eapply Hpc.
  - by eapply threadStep_holder.
  - eapply Counts_step; eauto.
Qed.

Lemma Inv_start (metas : list ObjectMeta) (a : string) (s0 : State) :
  (∀ meta, meta ∈ metas →
     defaultScoped meta = false
     ∧ index (Labels meta) CustomProjectAliasLabel = a) →
  m (fac s0) = false →
  clients (fac s0) !! clientKey (fac s0) a = None →
  Inv s0 a (start metas s0).
Proof.
  intros Hmetas Hm Hmiss.
  assert (Hentry : ∀ i pc, (AtEntry <$> metas) !! i = Some pc →
            ∃ meta, pc = AtEntry meta ∧ meta ∈ metas).
  { intros i pc Hi. rewrite list_lookup_fmap in Hi.
    destruct (metas !! i) as [meta|] eqn:Hmeta; [|done].
    injection Hi as <-. exists meta. split; [done|].
    by eapply list_elem_of_lookup_2. }
  unfold Inv, start. simpl. repeat split.
  - intros i pc (meta & -> & Hin)%Hentry. by apply Hmetas.
  - exists None. split; [by rewrite Hm|]. split; [done|].
    intros i pc (meta & -> & Hin)%Hentry. done.
  - exists 0, 0, 0. repeat split; [lia..|by left| | |].
    + left. split; [done|]. intros i x tc (meta & ? & _)%Hentry. done.
    + intros i pc (meta & -> & Hin)%Hentry. done.
    + intros i pc r (meta & -> & Hin)%Hentry. done.
Qed.

Lemma Inv_exec (s0 : State) (a : string) (sched : list nat) (cf cf' : Conf) :
  Inv s0 a cf → exec sched cf = Some cf' → Inv s0 a cf'.
Proof.
  revert cf. induction sched as [|i sched IH]; intros cf Hinv; simpl.
  - by intros [= <-].
  - destruct (schedule i cf) as [cf1|] eqn:Hs; [|done].
    apply IH. by eapply Inv_step.
Qed.

(** *** Every interleaving can go on, and ends *)

Lemma forallb_false_lookup (ts : list Pc) :
  forallb isFinished ts = false →
  ∃ i pc, ts !! i = Some pc ∧ isFinished pc = false.
Proof.
  induction ts as [|pc ts IH]; [done|]. simpl.
  destruct (isFinished pc) eqn:Hpc; simpl.
  - intros (i & x & Hi & Hx)%IH. by exists (S i), x.
  - intros _. by exists 0, pc.
Qed.

Lemma Inv_progress (s0 : State) (a : string) (cf : Conf) :
  Inv s0 a cf → allFinished cf = false → ∃ i cf', schedule i cf = Some cf'.
Proof.
  intros (_ & _ & _ & (h & Hm & Hex & Hh) & _) Hnot.
  assert (Hgo : ∀ i pc, threads cf !! i = Some pc →
            isFinished pc = false →
            (∀ x, pc = AtLock x → m (fac (shared cf)) = false) →
            (∀ r, pc = AtUnlock r → m (fac (shared cf)) = true) →
            ∃ i cf', schedule i cf = Some cf').
  { intros i pc Hi Hfin Hl Hu.
    destruct (stepThread_enabled pc (shared cf) Hfin Hl Hu) as (pc' & s' & Hs).
    exists i. unfold schedule. rewrite Hi, Hs. by eexists. }
  destruct h as [i|].
  - destruct (Hex i eq_refl) as [pc Hi].
    assert (Hcs : inCS pc = true) by (by apply (Hh i pc Hi)).
    apply (Hgo i pc Hi).
    + by destruct pc.
    + intros x ->. done.
    + intros r _. exact Hm.
  - apply forallb_false_lookup in Hnot as (i & pc & Hi & Hfin).
    assert (Hcs : inCS pc = false).
    { destruct (inCS pc) eqn:Hcs; [|done]. by apply (Hh i pc Hi) in Hcs. }
    apply (Hgo i pc Hi Hfin).
    + intros x _. exact Hm.
    + intros r ->. done.
Qed.

Lemma remaining_insert (ts : list Pc) (i : nat) (pc pc' : Pc) :
  ts !! i = Some pc →
  remaining (<[i := pc']> ts) + rank pc = remaining ts + rank pc'.
Proof.
  unfold remaining. revert i.
  induction ts as [|x ts IH]; intros [|i] Hi; try done.
  - injection Hi as ->.
    change (<[0 := pc']> (pc :: ts)) with (pc' :: ts).
    rewrite !fmap_cons. simpl. lia.
  - change (<[S i := pc']> (x :: ts)) with (x :: <[i := pc']> ts).
    rewrite !fmap_cons. simpl. specialize (IH i Hi). lia.
Qed.

Lemma schedule_remaining (i : nat) (cf cf' : Conf) :
  schedule i cf = Some cf' →
  remaining (threads cf') < remaining (threads cf).
Proof.
  intros (pc & pc' & Hi & Hstep & ->)%schedule_inv.
  pose proof (remaining_insert _ _ _ pc' Hi).
  pose proof (threadStep_rank _ _ _ _ Hstep). lia.
Qed.

Lemma exec_length (sched : list nat) (cf cf' : Conf) :
  exec sched cf = Some cf' →
  length sched + remaining (threads cf') ≤ remaining (threads cf).
Proof.
  revert cf. induction sched as [|i sched IH]; intros cf; simpl.
  - intros [= <-]. lia.
  - destruct (schedule i cf) as [cf1|] eqn:Hs; [|done].
    intros Hex. apply IH in Hex. apply schedule_remaining in Hs. lia.
Qed.

Lemma remaining_start (metas : list ObjectMeta) :
  remaining (AtEntry <$> metas) = 6 * length metas.
Proof.
  unfold remaining. induction metas as [|meta metas IH]; [done|].
  rewrite !fmap_cons. cbn [sum_list sum_list_with rank]. rewrite IH.
  simpl. lia.
Qed.

Lemma exec_app (sched1 sched2 : list nat) (cf : Conf) :
  exec (sched1 ++ sched2) cf
  = match exec sched1 cf with
    | Some cf1 => exec sched2 cf1
    | None => None
    end.
Proof.
  revert cf. induction sched1 as [|i sched1 IH]; intros cf; simpl; [done|].
  by destruct (schedule i cf).
Qed.

Lemma Inv_completes (s0 : State) (a : string) (cf : Conf) :
  Inv s0 a cf →
  ∃ sched cf', exec sched cf = Some cf' ∧ allFinished cf' = true.
Proof.
  remember (remaining (threads cf)) as n eqn:Hn.
  revert cf Hn. induction (lt_wf n) as [n _ IH]. intros cf -> Hinv.
  destruct (allFinished cf) eqn:Hfin.
  - by exists [], cf.
  - destruct (Inv_progress _ _ _ Hinv Hfin) as (i & cf1 & Hs).
    destruct (IH _ (schedule_remaining _ _ _ Hs) cf1 eq_refl)
      as (sched & cf' & Hex & Hall); [by eapply Inv_step|].
    exists (i :: sched), cf'. simpl. by rewrite Hs.
Qed.

(** *** One goroutine on its own is [get] *)

Lemma runThread_get (meta : ObjectMeta) (s : State) :
  runThread 6 (AtEntry meta) s = (r ← get meta; mret (Finished r)) s.
Proof.
  cbv beta iota zeta delta
    [runThread stepThread get getLocked mbind M_bind bind this mret M_ret ret
     Lock Unlock store klog_Errorf emit].
  destruct (defaultScoped meta); [done|].
  destruct (m (fac s)); [done|].
  set (a := index (Labels meta) CustomProjectAliasLabel).
  change (fac (locked s)) with (set_m true (fac s)).
  change (clients (set_m true (fac s))) with (clients (fac s)).
  change (clientKey (set_m true (fac s)) a) with (clientKey (fac s) a).
  destruct (clients (fac s) !! clientKey (fac s) a) as [mc|]; [done|].
  destruct (getProjectTypedClient_spec a (locked s))
    as (cl & err & w & evs & -> & _).
  destruct err as [e|]; reflexivity.
Qed.

Lemma exec_threads_length (sched : list nat) (cf cf' : Conf) :
  exec sched cf = Some cf' → length (threads cf') = length (threads cf).
Proof.
  revert cf. induction sched as [|i sched IH]; intros cf; simpl.
  - by intros [= <-].
  - destruct (schedule i cf) as [cf1|] eqn:Hs; [|done].
    intros Hex. rewrite (IH _ Hex).
    apply schedule_inv in Hs as (pc & pc' & _ & _ & ->).
    by rewrite length_insert.
Qed.

(** C3. Any number of goroutines call [get] with metadata that carry the
    same non-empty alias, whose key is not cached; they share the factory
    and take their steps in any order. Run alone, a goroutine of the model
    is [get]. At every point of every interleaving at most one client has
    been stored under the key, it is stored exactly when the key is bound,
    the loader has run at most once more than constructions have failed,
    and what a goroutine returns is the stored client or, after a failed
    construction, the default client. When all have returned and no
    construction failed, the loader ran exactly once, exactly one client
    was stored and every goroutine returned that client. No interleaving
    gets stuck before all goroutines have returned, and none is longer than
    six steps per goroutine. *)
Theorem concurrent_gets_construct_once
    (metas : list ObjectMeta) (a : string) (s0 : State)
    (sched : list nat) (cf : Conf) :
  let key := clientKey (fac s0) a in
  let path := configPath (fac s0) a in
  let tr0 := trace s0 in
  let tr := trace (shared cf) in
  (∀ meta, meta ∈ metas →
     defaultScoped meta = false
     ∧ index (Labels meta) CustomProjectAliasLabel = a) →
  m (fac s0) = false →
  clients (fac s0) !! key = None →
  exec sched (start metas s0) = Some cf →
  (∀ meta s, runThread 6 (AtEntry meta) s = (r ← get meta; mret (Finished r)) s)
  ∧ stores key tr ≤ stores key tr0 + 1
  ∧ (stores key tr = stores key tr0 + 1
     ↔ is_Some (clients (fac (shared cf)) !! key))
  ∧ loaderCalls path tr
    ≤ loaderCalls path tr0 + (failures tr - failures tr0) + 1
  ∧ (∀ i pc r,
       threads cf !! i = Some pc → result pc = Some r →
       clients (fac (shared cf)) !! key = Some r
       ∨ (r = defaultClient (fac s0) ∧ failures tr0 < failures tr))
  ∧ (allFinished cf = true → metas ≠ [] → failures tr = failures tr0 →
     loaderCalls path tr = loaderCalls path tr0 + 1
     ∧ stores key tr = stores key tr0 + 1
     ∧ ∃ tc, clients (fac (shared cf)) !! key = Some tc
             ∧ ∀ i pc, threads cf !! i = Some pc → pc = Finished tc)
  ∧ (allFinished cf = false → ∃ i cf', schedule i cf = Some cf')
  ∧ length sched ≤ 6 * length metas
  ∧ ∃ sched' cf',
      exec (sched ++ sched') (start metas s0) = Some cf'
      ∧ allFinished cf' = true.
Proof.
  intros key path tr0 tr Hmetas Hm Hmiss Hexec.
  assert (Hinv : Inv s0 a cf).
  { eapply Inv_exec; [|exact Hexec]. by apply Inv_start. }
  split; [apply runThread_get|].
  pose proof Hinv as (_ & _ & _ & _ & Hcounts).
  destruct Hcounts
    as (nf & stored & pend & Hf & Hs & Hl & Hst & Hpe & Habs & Hres).
  fold key path tr tr0 in Hf, Hs, Hl, Hst, Habs, Hres.
  assert (Hsp : stored + pend ≤ 1).
  { destruct Hst as [[-> _]|[-> Hsome]];
      destruct Hpe as [[-> _]|[-> (i & tc & Hi)]]; try lia.
    rewrite (Habs i _ Hi eq_refl) in Hsome. by destruct Hsome. }
  split; [lia|]. split.
  { destruct Hst as [[-> Hnone]|[-> Hsome]].
    - rewrite Hnone. split; [lia|by intros [? ?]].
    - split; [done|lia]. }
  split; [lia|]. split.
  { intros i pc r Hi Hr. destruct (Hres i pc r Hi Hr) as [?|[? ?]]; [by left|].
    right. split; [done|lia]. }
  split.
  { intros Hall Hne Hnf. assert (nf = 0) as -> by lia.
    assert (Hlen : length (threads cf) = length metas).
    { rewrite (exec_threads_length _ _ _ Hexec). unfold start. simpl.
      by rewrite length_fmap. }
    assert (Hfin : ∀ i pc, threads cf !! i = Some pc → ∃ r, pc = Finished r).
    { intros i pc Hi. unfold allFinished in Hall.
      rewrite forallb_forall in Hall.
      specialize (Hall pc). rewrite <- list_elem_of_In in Hall.
      specialize (Hall (list_elem_of_lookup_2 _ _ _ Hi)).
      destruct pc; try done. by eexists. }
    destruct (threads cf) as [|pc0 ts] eqn:Hts.
    { destruct metas; [done|]. simpl in Hlen. lia. }
    destruct (Hfin 0 pc0 eq_refl) as [tc ->].
    destruct (Hres 0 (Finished tc) tc eq_refl eq_refl) as [Htc|[_ ?]]; [|lia].
    assert (stored = 1) as ->.
    { destruct Hst as [[_ Hnone]|[-> _]]; [congruence|done]. }
    repeat split; [lia|lia|].
    exists tc. split; [done|].
    intros i pc Hi. destruct (Hfin i pc Hi) as [r ->].
    destruct (Hres i (Finished r) r Hi eq_refl) as [Hr|[_ ?]]; [|lia].
    congruence. }
  split; [by eapply Inv_progress|].
  split.
  { pose proof (exec_length _ _ _ Hexec) as Hlen. unfold start in Hlen.
    simpl in Hlen. rewrite remaining_start in Hlen. lia. }
  destruct (Inv_completes _ _ _ Hinv) as (sched' & cf' & Hex' & Hall).
  exists sched', cf'. by rewrite exec_app, Hexec.
Qed.

End Concurrent.

(** ** The factory at work in the small world *)

Lemma demo_constructors_sound : @ConstructorsSound demoExt.
Proof.
  intros ctor p eo w cl w' Hin Hcall.
  assert (ctor = demoNew) as ->.
  { unfold typedConstructors in Hin. simpl in Hin.
    repeat (apply elem_of_cons in Hin as [->|Hin]; [done|]).
    by apply elem_of_nil in Hin. }
  injection Hcall as <- _. by eexists.
Qed.

Lemma get_always_returns_a_client_witness :
  @ConstructorsSound demoExt
  ∧ evolves (demoInitial "compute") (demoInitial "compute")
  ∧ ∃ (cl : ServiceClient) (s' : @State demoExt),
      get (metaOf "acme") (demoInitial "compute") = Returns (Some cl) s'.
Proof.
  split; [exact demo_constructors_sound|]. split; [apply evolves_refl|].
  destruct (get_always_returns_a_client (Ext := demoExt)
              "compute" (ServiceClientAt 1) 2%positive
              (demoInitial "compute") (metaOf "acme")
              demo_constructors_sound (evolves_refl _))
    as (cl & s' & Hget & _).
  by exists cl, s'.
Defined.

(** C1 as it is worded, for every cache state, does not hold. [get] hands
    back [c.defaultClient] unchecked: a factory made by
    [newClientsFactory "compute" nil] returns nil for metadata without
    labels, and again, after a failed construction, for a tenant without a
    configuration file. And [get] stores and returns what the typed
    constructor gave without a look at it: with a default client that is
    not nil and a constructor that returns no client and no error, it
    returns nil for the tenant acme and binds "compute/acme" to nil. *)
Lemma get_can_return_nil :
  @get demoExt {| Labels := None |} (@initial demoExt "compute" None 2%positive)
  = Returns None (@initial demoExt "compute" None 2%positive)
  ∧ (∃ s' : @State demoExt,
       get (metaOf "ghost") (@initial demoExt "compute" None 2%positive)
       = Returns None s'
       ∧ clients (fac s') = ∅)
  ∧ (∃ s' : @State slackExt,
       get (metaOf "acme") (@initial slackExt "compute" demoDefault 2%positive)
       = Returns None s'
       ∧ clients (fac s') !! "compute/acme" = Some None).
Proof.
  split; [reflexivity|]. split.
  - eexists. split; vm_compute; reflexivity.
  - eexists. split; vm_compute; reflexivity.
Qed.

Lemma get_default_scope_witness :
  @get demoExt {| Labels := None |} (demoInitial "compute")
  = Returns demoDefault (demoInitial "compute").
Proof.
  exact (proj1 (get_default_scope (Ext := demoExt) {| Labels := None |}
                  (demoInitial "compute") (or_introl eq_refl))).
Defined.

Lemma typed_client_or_error_witness :
  @ConstructorsSound demoExt
  ∧ ∃ cl err (s' : @State demoExt),
      getProjectTypedClient "acme" (demoInitial "network") = Returns (cl, err) s'
      ∧ ¬ (cl = None ∧ err = None).
Proof.
  split; [exact demo_constructors_sound|].
  destruct (typed_client_or_error (Ext := demoExt) "acme"
              (demoInitial "network") demo_constructors_sound)
    as (_ & cl & err & s' & Heq & Hnot & _).
  by exists cl, err, s'.
Defined.

Lemma unsupported_kind_gives_default_witness :
  supportedKind "bogus" = false
  ∧ ∃ s' : @State demoExt,
      get (metaOf "acme") (demoInitial "bogus") = Returns demoDefault s'
      ∧ clients (fac s') = ∅.
Proof.
  split; [reflexivity|].
  exact (proj2 (unsupported_kind_gives_default (Ext := demoExt) "bogus" eq_refl)
           demoDefault 2%positive (demoInitial "bogus") (metaOf "acme")
           (evolves_refl _)).
Defined.

Lemma failed_construction_falls_back_and_retries_witness :
  ∃ s' : @State demoExt,
    get (metaOf "ghost") (demoInitial "compute") = Returns demoDefault s'
    ∧ clients (fac s') = ∅
    ∧ loaderCalls "/etc/config//ghost.conf" (trace s') = 1
    ∧ ∃ r s'', get (metaOf "ghost") s' = Returns r s''
               ∧ loaderCalls "/etc/config//ghost.conf" (trace s'') = 2.
Proof.
  assert (Hfail : ∃ cl e s1,
    @getProjectTypedClient demoExt "ghost" (locked (demoInitial "compute"))
    = Returns (cl, Some e) s1).
  { eexists _, _, _. vm_compute. reflexivity. }
  destruct Hfail as (cl & e & s1 & Hfail).
  destruct (failed_construction_falls_back_and_retries (Ext := demoExt)
              (metaOf "ghost") (demoInitial "compute") cl e s1
              eq_refl eq_refl eq_refl Hfail)
    as (_ & s' & Hget & Hmap & _ & _ & Hload & Hretry).
  exists s'. split; [exact Hget|]. split; [exact Hmap|]. split; [exact Hload|].
  destruct (Hretry (world s')) as (r & s'' & _ & _ & _ & Hget2 & _ & Hload2 & _).
  exists r, s''. split.
  - destruct s'. exact Hget2.
  - refine (eq_trans Hload2 _). exact (f_equal (λ n, n + 1) Hload).
Defined.

Lemma second_get_returns_cached_client_witness :
  ∃ (tc : option ServiceClient) (s' : @State demoExt),
    get (metaOf "acme") (demoInitial "compute") = Returns tc s'
    ∧ clients (fac s') !! "compute/acme" = Some tc
    ∧ get (metaOf "acme") s'
      = Returns tc {| fac := fac s'; world := world s';
                      trace := trace s' ++ [EvLock; EvUnlock] |}.
Proof.
  assert (Hfirst : ∃ tc s',
    @get demoExt (metaOf "acme") (demoInitial "compute") = Returns tc s'
    ∧ clients (fac s') !! "compute/acme" = Some tc).
  { eexists _, _. split; vm_compute; reflexivity. }
  destruct Hfirst as (tc & s' & Hget & Hstored).
  exists tc, s'. split; [exact Hget|]. split; [exact Hstored|].
  destruct (second_get_returns_cached_client (Ext := demoExt)
              (metaOf "acme") (demoInitial "compute") tc s' tc
              eq_refl Hget eq_refl Hstored)
    as (_ & _ & Hlater).
  exact (proj1 (Hlater s' (evolves_refl _))).
Defined.

Lemma cache_grows_monotonically_witness :
  ∃ (tc : option ServiceClient) (s' : @State demoExt),
    get (metaOf "acme") (demoInitial "compute") = Returns tc s'
    ∧ (clients (fac s') !! "compute/acme"
       = clients (fac (demoInitial "compute")) !! "compute/acme"
       ∨ (clients (fac (demoInitial "compute")) !! "compute/acme" = None
          ∧ clients (fac s') !! "compute/acme" = Some tc)).
Proof.
  assert (Hfirst : ∃ tc s',
    @get demoExt (metaOf "acme") (demoInitial "compute") = Returns tc s').
  { eexists _, _. vm_compute. reflexivity. }
  destruct Hfirst as (tc & s' & Hget).
  exists tc, s'. split; [exact Hget|].
  destruct (proj1 (cache_grows_monotonically (Ext := demoExt))
              (metaOf "acme") (demoInitial "compute") tc s' Hget
              "compute/acme")
    as [Hsame|(Hnone & Hsome & _)].
  - by left.
  - by right.
Defined.

(** Three goroutines ask for the tenant acme; the second is the first to
    take the mutex. *)
Lemma concurrent_gets_construct_once_witness :
  ∃ cf : @Conf demoExt,
    exec [0; 1; 2; 1; 1; 1; 1; 1; 0; 0; 0; 2; 2; 2]
      (start [metaOf "acme"; metaOf "acme"; metaOf "acme"]
         (demoInitial "compute"))
    = Some cf
    ∧ allFinished cf = true
    ∧ loaderCalls "/etc/config//acme.conf" (trace (shared cf)) = 1
    ∧ stores "compute/acme" (trace (shared cf)) = 1
    ∧ ∃ tc, clients (fac (shared cf)) !! "compute/acme" = Some tc
            ∧ ∀ i pc, threads cf !! i = Some pc → pc = Finished tc.
Proof.
  eexists. split; [vm_compute; reflexivity|].
  split; [vm_compute; reflexivity|].
  match goal with |- context [shared ?c] => set (cf := c) end.
  assert (Hmetas : ∀ meta,
    meta ∈ [metaOf "acme"; metaOf "acme"; metaOf "acme"] →
    defaultScoped meta = false
    ∧ index (Labels meta) CustomProjectAliasLabel = "acme").
  { intros meta Hin.
    repeat (apply elem_of_cons in Hin as [->|Hin]; [by split|]).
    by apply elem_of_nil in Hin. }
  assert (Hexec :
    exec [0; 1; 2; 1; 1; 1; 1; 1; 0; 0; 0; 2; 2; 2]
      (start [metaOf "acme"; metaOf "acme"; metaOf "acme"]
         (demoInitial "compute")) = Some cf).
  { vm_compute. reflexivity. }
  destruct (concurrent_gets_construct_once (Ext := demoExt)
              [metaOf "acme"; metaOf "acme"; metaOf "acme"] "acme"
              (demoInitial "compute")
              [0; 1; 2; 1; 1; 1; 1; 1; 0; 0; 0; 2; 2; 2] cf
              Hmetas eq_refl eq_refl Hexec)
    as (_ & _ & _ & _ & _ & Hdone & _).
  destruct Hdone as (Hload & Hstore & Hsame);
    [vm_compute; reflexivity|done|vm_compute; reflexivity|].
  split; [exact Hload|]. split; [exact Hstore|]. exact Hsame.
Defined.

(** * More about the construction procedure *)

Section Construction.
Context `{Ext : Externals}.

(** The three methods computed from what the outside functions return. *)

Lemma getProjectConfig_run (a : string) (s : State) :
  let path := configPath (fac s) a in
  getProjectConfig a s =
    match os_Open path (world s) with
    | ((f, Some e), w1) =>
        Returns
          (None, Some ("failed to open cloud provider configuration "
                       +:+ path +:+ ": " +:+ e))
          {| fac := fac s; world := w1;
             trace := trace s
               ++ [EvOpen path;
                   EvErrorf "Couldn't open cloud provider configuration %s: %#v"
                     [AString path; AError (Some e)]] |}
    | ((f, None), w1) =>
        match ReadConfig f w1 with
        | ((c, Some e), w2) =>
            Returns
              (None, Some ("failed to read cloud provider configuration "
                           +:+ path +:+ ": " +:+ e))
              {| fac := fac s; world := File_Close f w2;
                 trace := trace s ++ [EvOpen path; EvReadConfig; EvClose] |}
        | ((c, None), w2) =>
            Returns (Some c, None)
              {| fac := fac s; world := File_Close f w2;
                 trace := trace s ++ [EvOpen path; EvReadConfig; EvClose] |}
        end
    end.
Proof.
  unfold getProjectConfig, mbind, M_bind, bind, this, extern, klog_Errorf,
    emit, mret, M_ret, ret, Errorf.
  simpl.
  destruct (os_Open (configPath (fac s) a) (world s)) as [[f [e|]] w1]; simpl.
  - by rewrite <- app_assoc.
  - destruct (ReadConfig f w1) as [[c [e|]] w2]; simpl;
      by rewrite <- !app_assoc.
Qed.

Lemma getProjectProvider_run (cfg : Config) (s : State) :
  getProjectProvider (Some cfg) s =
    match NewOpenStackClient (Global cfg) "openstack-cloud-controller-manager"
            userAgentData (world s) with
    | ((p, Some e), w1) =>
        Returns (None, false, Some ("failed to create openstack client: " +:+ e))
          {| fac := fac s; world := w1;
             trace := trace s ++ [EvNewOpenStackClient] |}
    | ((p, None), w1) =>
        Returns (p, true, None)
          {| fac := fac s; world := w1;
             trace := trace s ++ [EvNewOpenStackClient] |}
    end.
Proof.
  unfold getProjectProvider, mbind, M_bind, bind, extern, mret, M_ret, ret,
    Errorf.
  by destruct (NewOpenStackClient _ _ _ _) as [[p [e|]] w1].
Qed.

Lemma typedArm_run ev ctor format (s : State) :
  typedArm ev ctor format s =
    match ctor (world s) with
    | ((cl, Some e), w) =>
        Returns (None, Some e)
          {| fac := fac s; world := w;
             trace := trace s ++ [ev; EvErrorf format [AError (Some e)]] |}
    | ((cl, None), w) =>
        Returns (cl, None)
          {| fac := fac s; world := w; trace := trace s ++ [ev] |}
    end.
Proof.
  unfold typedArm, mbind, M_bind, bind, extern, klog_Errorf, emit, mret,
    M_ret, ret.
  destruct (ctor (world s)) as [[cl [e|]] w]; simpl; [|done].
  by rewrite <- app_assoc.
Qed.

(** X1. getProjectConfig closes what it opens: when os.Open fails nothing
    is read or closed and the error names the path and the cause; when it
    succeeds the file is read and then closed, once, whether or not the
    configuration parses. The result is a configuration or an error, never
    both and never neither. *)
Theorem getProjectConfig_closes_what_it_opens (a : string) (s : State) :
  let path := configPath (fac s) a in
  ∃ cfg err w evs,
    getProjectConfig a s =
      Returns (cfg, err)
        {| fac := fac s; world := w; trace := trace s ++ evs |}
    ∧ (is_Some cfg ↔ err = None)
    ∧ externalCalls evs
      = (if (os_Open path (world s)).1.2 is None
         then [EvOpen path; EvReadConfig; EvClose]
         else [EvOpen path])
    ∧ (∀ f e w1,
         os_Open path (world s) = ((f, Some e), w1) →
         w = w1
         ∧ err = Some ("failed to open cloud provider configuration "
                       +:+ path +:+ ": " +:+ e))
    ∧ (∀ f w1 c rerr w2,
         os_Open path (world s) = ((f, None), w1) →
         ReadConfig f w1 = ((c, rerr), w2) →
         w = File_Close f w2
         ∧ match rerr with
           | Some e =>
               err = Some ("failed to read cloud provider configuration "
                           +:+ path +:+ ": " +:+ e)
           | None => cfg = Some c
           end).
Proof.
  intros path. rewrite getProjectConfig_run. fold path.
  destruct (os_Open path (world s)) as [[f [e|]] w1] eqn:Hopen.
  - eexists _, _, _, _. split; [reflexivity|]. simpl.
    split; [split; [by intros [? ?]|done]|]. split; [reflexivity|].
    split; [by intros ? ? ? [= _ <- <-]|done].
  - destruct (ReadConfig f w1) as [[c [e|]] w2] eqn:Hread.
    + eexists _, _, _, _. split; [reflexivity|]. simpl.
      split; [split; [by intros [? ?]|done]|]. split; [reflexivity|].
      split; [done|].
      intros ? ? ? ? ? [= <- <-] Hr. rewrite Hread in Hr.
      by injection Hr as <- <- <-.
    + eexists _, _, _, _. split; [reflexivity|]. simpl.
      split; [by split; [|eexists]|]. split; [reflexivity|].
      split; [done|].
      intros ? ? ? ? ? [= <- <-] Hr. rewrite Hread in Hr.
      by injection Hr as <- <- <-.
Qed.

Lemma getProjectTypedClient_run (a : string) (s : State) :
  let path := configPath (fac s) a in
  let kind := clientType (fac s) in
  let st w evs := {| fac := fac s; world := w; trace := trace s ++ evs |} in
  getProjectTypedClient a s =
    match os_Open path (world s) with
    | ((f, Some e), w1) =>
        Returns
          (None, Some ("failed to read cloud provider configuration "
                       +:+ "failed to open cloud provider configuration "
                       +:+ path +:+ ": " +:+ e))
          (st w1
             [EvOpen path;
              EvErrorf "Couldn't open cloud provider configuration %s: %#v"
                [AString path; AError (Some e)]])
    | ((f, None), w1) =>
        match ReadConfig f w1 with
        | ((c, Some e), w2) =>
            Returns
              (None, Some ("failed to read cloud provider configuration "
                           +:+ "failed to read cloud provider configuration "
                           +:+ path +:+ ": " +:+ e))
              (st (File_Close f w2) [EvOpen path; EvReadConfig; EvClose])
        | ((c, None), w2) =>
            match NewOpenStackClient (Global c)
                    "openstack-cloud-controller-manager" userAgentData
                    (File_Close f w2) with
            | ((p, Some e), w3) =>
                Returns
                  (None, Some ("failed to create openstack client: " +:+ e))
                  (st w3
                     [EvOpen path; EvReadConfig; EvClose; EvNewOpenStackClient;
                      EvErrorf "Couldn't get openstack client for project %s: %#v"
                        [AString a;
                         AError (Some ("failed to create openstack client: "
                                       +:+ e))]])
            | ((p, None), w3) =>
                match constructorOf kind with
                | None =>
                    Returns (None, Some ("unknown client type " +:+ kind))
                      (st w3 [EvOpen path; EvReadConfig; EvClose;
                              EvNewOpenStackClient])
                | Some (ev, ctor, format) =>
                    match ctor p (epOptsOf c) w3 with
                    | ((cl, Some e), w4) =>
                        Returns (None, Some e)
                          (st w4 [EvOpen path; EvReadConfig; EvClose;
                                  EvNewOpenStackClient; ev;
                                  EvErrorf format [AError (Some e)]])
                    | ((cl, None), w4) =>
                        Returns (cl, None)
                          (st w4 [EvOpen path; EvReadConfig; EvClose;
                                  EvNewOpenStackClient; ev])
                    end
                end
            end
        end
    end.
Proof.
  intros path kind st.
  pose proof (getProjectConfig_run a s) as Hc. cbv zeta in Hc.
  fold path in Hc.
  destruct (os_Open path (world s)) as [[f [e|]] w1].
  { by rewrite (getProjectTypedClient_config_fails _ _ _ _ _ Hc). }
  destruct (ReadConfig f w1) as [[c [e|]] w2].
  { by rewrite (getProjectTypedClient_config_fails _ _ _ _ _ Hc). }
  match type of Hc with _ = Returns _ ?s1 =>
    pose proof (getProjectProvider_run c s1) as Hp
  end.
  cbn [fac world trace] in Hp.
  destruct (NewOpenStackClient _ _ _ _) as [[p [e|]] w3].
  { rewrite (getProjectTypedClient_provider_fails _ _ _ _ _ _ _ _ Hc Hp).
    unfold emit, st. simpl. rewrite <- ?app_assoc. reflexivity. }
  rewrite (getProjectTypedClient_switch _ _ _ _ _ _ _ Hc Hp). fold kind.
  destruct (constructorOf kind) as [[[ev ctor] format]|].
  - rewrite typedArm_run. cbn [world trace fac].
    destruct (ctor p (epOptsOf c) w3) as [[cl [e|]] w4];
      unfold st; rewrite <- ?app_assoc; reflexivity.
  - unfold st. cbn [fac world trace]. rewrite <- ?app_assoc. reflexivity.
Qed.

Lemma externalCalls_cons (ev : Event) (evs : list Event) :
  externalCalls (ev :: evs)
  = if isExternalCall ev then ev :: externalCalls evs else externalCalls evs.
Proof.
  unfold externalCalls. rewrite filter_cons. by destruct (isExternalCall ev).
Qed.

(** X2. The outside calls of a construction come in one order, each at most
    once, and stop at the first failure: open, read, close, the provider
    handle, the constructor of the kind. What a call of
    getProjectTypedClient does is a prefix of that list, and all of it when
    the construction succeeds, which needs a kind that has a constructor.
    Where the prefix ends is fixed by the first step that fails, and no
    outside call is made after it: only the open when the file does not
    open; open, read and close when the configuration does not parse;
    these and NewOpenStackClient when the provider handle is not built;
    and the whole list once the handle is built, the constructor of the
    kind being called once whether it fails or not, and no constructor
    when the kind has none. *)
Theorem construction_calls_in_order (a : string) (s : State) :
  let path := configPath (fac s) a in
  ∃ cl err s' evs,
    getProjectTypedClient a s = Returns (cl, err) s'
    ∧ trace s' = trace s ++ evs
    ∧ externalCalls evs `prefix_of` constructionCalls (clientType (fac s)) path
    ∧ (err = None →
       externalCalls evs = constructionCalls (clientType (fac s)) path
       ∧ is_Some (constructorOf (clientType (fac s))))
    ∧ (∀ f e w1,
         os_Open path (world s) = ((f, Some e), w1) →
         externalCalls evs = [EvOpen path] ∧ err ≠ None)
    ∧ (∀ f w1 c e w2,
         os_Open path (world s) = ((f, None), w1) →
         ReadConfig f w1 = ((c, Some e), w2) →
         externalCalls evs = [EvOpen path; EvReadConfig; EvClose]
         ∧ err ≠ None)
    ∧ (∀ f w1 c w2 p e w3,
         os_Open path (world s) = ((f, None), w1) →
         ReadConfig f w1 = ((c, None), w2) →
         NewOpenStackClient (Global c) "openstack-cloud-controller-manager"
           userAgentData (File_Close f w2) = ((p, Some e), w3) →
         externalCalls evs
         = [EvOpen path; EvReadConfig; EvClose; EvNewOpenStackClient]
         ∧ err ≠ None)
    ∧ (∀ f w1 c w2 p w3,
         os_Open path (world s) = ((f, None), w1) →
         ReadConfig f w1 = ((c, None), w2) →
         NewOpenStackClient (Global c) "openstack-cloud-controller-manager"
           userAgentData (File_Close f w2) = ((p, None), w3) →
         externalCalls evs = constructionCalls (clientType (fac s)) path
         ∧ match constructorOf (clientType (fac s)) with
           | Some (ev, ctor, _) =>
               externalCalls evs
               = [EvOpen path; EvReadConfig; EvClose; EvNewOpenStackClient; ev]
               ∧ ∃ cl' w4,
                   ctor p (epOptsOf c) w3 = ((cl', err), w4) ∧ world s' = w4
           | None =>
               externalCalls evs
               = [EvOpen path; EvReadConfig; EvClose; EvNewOpenStackClient]
               ∧ err ≠ None ∧ world s' = w3
           end).
Proof.
  intros path. rewrite getProjectTypedClient_run. fold path.
  unfold constructionCalls.
  destruct (os_Open path (world s)) as [[f [e|]] w1] eqn:Hopen.
  { eexists _, _, _, _. split; [reflexivity|]. split; [reflexivity|].
    split; [by eexists|]. split; [done|]. split; [done|].
    repeat split; intros; discriminate. }
  destruct (ReadConfig f w1) as [[c [e|]] w2] eqn:Hread.
  { eexists _, _, _, _. split; [reflexivity|]. split; [reflexivity|].
    split; [by eexists|]. split; [done|]. split; [intros; discriminate|].
    split; [done|].
    split.
    { intros ? ? ? ? ? ? ? [= <- <-] Hr. rewrite Hread in Hr. discriminate Hr. }
    intros ? ? ? ? ? ? [= <- <-] Hr. rewrite Hread in Hr. discriminate Hr. }
  destruct (NewOpenStackClient (Global c) "openstack-cloud-controller-manager"
              userAgentData (File_Close f w2)) as [[p [e|]] w3] eqn:Hprov.
  { eexists _, _, _, _. split; [reflexivity|]. split; [reflexivity|].
    split; [by eexists|]. split; [done|]. split; [intros; discriminate|].
    split.
    { intros ? ? ? ? ? [= <- <-] Hr. rewrite Hread in Hr. discriminate Hr. }
    split; [done|].
    intros ? ? ? ? ? ? [= <- <-] Hr Hp. rewrite Hread in Hr.
    injection Hr as <- <-. rewrite Hprov in Hp. discriminate Hp. }
  destruct (constructorOf (clientType (fac s))) as [[[ev ctor] format]|] eqn:Hk.
  - assert (Hev : isExternalCall ev = true).
    { unfold constructorOf in Hk.
      repeat (destruct (String.eqb (clientType (fac s)) _);
              [by injection Hk as <- _ _|]).
      done. }
    assert (Hall : ∀ rest,
              forallb (λ x, negb (isExternalCall x)) rest = true →
              externalCalls
                ([EvOpen path; EvReadConfig; EvClose; EvNewOpenStackClient; ev]
                 ++ rest)
              = [EvOpen path; EvReadConfig; EvClose; EvNewOpenStackClient]
                ++ [ev]).
    { intros rest Hrest. rewrite <- !app_comm_cons.
      rewrite !externalCalls_cons. simpl. rewrite Hev. simpl.
      do 5 f_equal. induction rest as [|x rest IH]; [done|].
      simpl in Hrest. apply andb_prop in Hrest as [Hx Hrest].
      rewrite externalCalls_cons.
      destruct (isExternalCall x); [discriminate Hx|by apply IH]. }
    destruct (ctor p (epOptsOf c) w3) as [[cl [e|]] w4] eqn:Hctor.
    + eexists _, _, _, _. split; [reflexivity|]. split; [reflexivity|].
      pose proof (Hall [EvErrorf format [AError (Some e)]] eq_refl) as Hcalls.
      simpl app in Hcalls at 1. rewrite Hcalls.
      split; [by exists []|]. split; [done|].
      split; [intros; discriminate|]. split.
      { intros ? ? ? ? ? [= <- <-] Hr. rewrite Hread in Hr. discriminate Hr. }
      split.
      { intros ? ? ? ? ? ? ? [= <- <-] Hr Hp. rewrite Hread in Hr.
        injection Hr as <- <-. rewrite Hprov in Hp. discriminate Hp. }
      intros ? ? ? ? ? ? [= <- <-] Hr Hp. rewrite Hread in Hr.
      injection Hr as <- <-. rewrite Hprov in Hp. injection Hp as <- <-.
      split; [done|]. split; [done|]. rewrite Hctor. by eexists _, _.
    + eexists _, _, _, _. split; [reflexivity|]. split; [reflexivity|].
      pose proof (Hall [] eq_refl) as Hcalls. rewrite app_nil_r in Hcalls.
      rewrite Hcalls.
      split; [by exists []|]. split; [by split; [|eexists]|].
      split; [intros; discriminate|]. split.
      { intros ? ? ? ? ? [= <- <-] Hr. rewrite Hread in Hr. discriminate Hr. }
      split.
      { intros ? ? ? ? ? ? ? [= <- <-] Hr Hp. rewrite Hread in Hr.
        injection Hr as <- <-. rewrite Hprov in Hp. discriminate Hp. }
      intros ? ? ? ? ? ? [= <- <-] Hr Hp. rewrite Hread in Hr.
      injection Hr as <- <-. rewrite Hprov in Hp. injection Hp as <- <-.
      split; [done|]. split; [done|]. rewrite Hctor. by eexists _, _.
  - eexists _, _, _, _. split; [reflexivity|]. split; [reflexivity|].
    split; [by exists []|]. split; [done|].
    split; [intros; discriminate|]. split.
    { intros ? ? ? ? ? [= <- <-] Hr. rewrite Hread in Hr. discriminate Hr. }
    split.
    { intros ? ? ? ? ? ? ? [= <- <-] Hr Hp. rewrite Hread in Hr.
      injection Hr as <- <-. rewrite Hprov in Hp. discriminate Hp. }
    intros ? ? ? ? ? ? [= <- <-] Hr Hp. rewrite Hread in Hr.
    injection Hr as <- <-. rewrite Hprov in Hp. injection Hp as <- <-.
    done.
Qed.

(** X3. A construction succeeds exactly when the file opens, the
    configuration parses, the provider handle is built and the constructor
    of the kind reports no error. The client returned is then the one of
    that constructor, called with the handle NewOpenStackClient built from
    the global section of this configuration (after the file was closed)
    and with the region and the endpoint type of that section. *)
Theorem construction_succeeds_iff (a : string) (s : State) cl s' :
  let path := configPath (fac s) a in
  getProjectTypedClient a s = Returns (cl, None) s'
  ↔ ∃ f w1 c w2 p w3 ev ctor format,
      os_Open path (world s) = ((f, None), w1)
      ∧ ReadConfig f w1 = ((c, None), w2)
      ∧ NewOpenStackClient (Global c) "openstack-cloud-controller-manager"
          userAgentData (File_Close f w2) = ((p, None), w3)
      ∧ constructorOf (clientType (fac s)) = Some (ev, ctor, format)
      ∧ ctor p {| eoRegion := Region (Global c);
                  eoAvailability := EndpointType (Global c) |} w3
        = ((cl, None), world s')
      ∧ s' = {| fac := fac s; world := world s';
                trace := trace s
                  ++ [EvOpen path; EvReadConfig; EvClose;
                      EvNewOpenStackClient; ev] |}.
Proof.
  intros path. rewrite getProjectTypedClient_run. fold path. split.
  - destruct (os_Open path (world s)) as [[f [e|]] w1] eqn:Ho; [done|].
    destruct (ReadConfig f w1) as [[c [e|]] w2] eqn:Hr; [done|].
    destruct (NewOpenStackClient _ _ _ _) as [[p [e|]] w3] eqn:Hp; [done|].
    destruct (constructorOf (clientType (fac s)))
      as [[[ev ctor] format]|] eqn:Hk; [|done].
    destruct (ctor p (epOptsOf c) w3) as [[cl' [e|]] w4] eqn:Hcall; [done|].
    intros [= <- <-]. by eexists f, w1, c, w2, p, w3, ev, ctor, format.
  - intros (f & w1 & c & w2 & p & w3 & ev & ctor & format
            & -> & -> & -> & -> & Hcall & ->).
    unfold epOptsOf. by rewrite Hcall.
Qed.

(** X4. The error of a failed construction tells the step: a file that
    does not open and a configuration that does not parse both give
    "failed to read cloud provider configuration" followed by the message
    of getProjectConfig (which names the path and the cause, and for a
    parse failure starts with the same words again); a provider handle
    that cannot be built gives "failed to create openstack client: " and
    the cause; the error of a typed constructor is passed on as it is. The
    client is nil in all four cases. *)
Theorem construction_error_messages (a : string) (s : State) :
  let path := configPath (fac s) a in
  (∀ f e w1,
     os_Open path (world s) = ((f, Some e), w1) →
     ∃ s', getProjectTypedClient a s =
             Returns (None,
                      Some ("failed to read cloud provider configuration "
                            +:+ "failed to open cloud provider configuration "
                            +:+ path +:+ ": " +:+ e)) s')
  ∧ (∀ f w1 c e w2,
       os_Open path (world s) = ((f, None), w1) →
       ReadConfig f w1 = ((c, Some e), w2) →
       ∃ s', getProjectTypedClient a s =
               Returns (None,
                        Some ("failed to read cloud provider configuration "
                              +:+ "failed to read cloud provider configuration "
                              +:+ path +:+ ": " +:+ e)) s')
  ∧ (∀ f w1 c w2 p e w3,
       os_Open path (world s) = ((f, None), w1) →
       ReadConfig f w1 = ((c, None), w2) →
       NewOpenStackClient (Global c) "openstack-cloud-controller-manager"
         userAgentData (File_Close f w2) = ((p, Some e), w3) →
       ∃ s', getProjectTypedClient a s =
               Returns (None, Some ("failed to create openstack client: " +:+ e))
                 s')
  ∧ (∀ f w1 c w2 p w3 ev ctor format cl e w4,
       os_Open path (world s) = ((f, None), w1) →
       ReadConfig f w1 = ((c, None), w2) →
       NewOpenStackClient (Global c) "openstack-cloud-controller-manager"
         userAgentData (File_Close f w2) = ((p, None), w3) →
       constructorOf (clientType (fac s)) = Some (ev, ctor, format) →
       ctor p (epOptsOf c) w3 = ((cl, Some e), w4) →
       ∃ s', getProjectTypedClient a s = Returns (None, Some e) s').
Proof.
  intros path. rewrite getProjectTypedClient_run. fold path.
  repeat split.
  - intros f e w1 ->. by eexists.
  - intros f w1 c e w2 -> ->. by eexists.
  - intros f w1 c w2 p e w3 -> -> ->. by eexists.
  - intros f w1 c w2 p w3 ev ctor format cl e w4 -> -> -> -> ->. by eexists.
Qed.

End Construction.

(** * More about [get] *)

Section MoreGet.
Context `{Ext : Externals}.

Lemma construction_no_lock (evs : list Event) :
  forallb constructionEvent evs = true →
  forallb (λ ev, negb (isLockEvent ev)) evs = true.
Proof.
  rewrite !forallb_forall. intros H ev Hin. specialize (H ev Hin).
  by destruct ev.
Qed.

(** X5. [get] does all its work between one Lock and one Unlock: a call
    that returns leaves the mutex as it found it; on the default-scope
    path it touches nothing, and otherwise the mutex was free, the events
    of the call start with the Lock and end with the Unlock, with no other
    Lock or Unlock between them, also when the construction fails. *)
Theorem get_locks_once_and_unlocks (meta : ObjectMeta) (s : State) r s' :
  get meta s = Returns r s' →
  m (fac s') = m (fac s)
  ∧ ∃ evs,
      trace s' = trace s ++ evs
      ∧ (defaultScoped meta = true → evs = [] ∧ world s' = world s)
      ∧ (defaultScoped meta = false →
         m (fac s) = false
         ∧ ∃ mid, evs = EvLock :: mid ++ [EvUnlock]
                  ∧ forallb (λ ev, negb (isLockEvent ev)) mid = true).
Proof.
  intros [(Hd & _ & ->)|(Hd & Hm & Hcase)]%get_returns_inv.
  { split; [done|]. exists []. rewrite app_nil_r.
    split; [done|]. split; [done|]. congruence. }
  split; [by destruct (getCase_frame _ _ _ _ Hcase)|].
  destruct Hcase as [Hd'|mc _ Hhit|cl e w evs a _ Hmiss Hcons Hevs
                    |cl w evs a _ Hmiss Hcons Hevs].
  - congruence.
  - exists [EvLock; EvUnlock]. split; [done|]. split; [congruence|].
    intros _. split; [done|]. by exists [].
  - eexists. split; [reflexivity|]. split; [congruence|].
    intros _. split; [done|].
    exists (EvOpen (configPath (fac s) a) :: evs
            ++ [EvErrorf failedGetFormat [AString a; AError (Some e)]]).
    split; [simpl; by rewrite <- app_assoc|].
    simpl. rewrite forallb_app, (construction_no_lock evs Hevs). done.
  - eexists. split; [reflexivity|]. split; [congruence|].
    intros _. split; [done|].
    exists (EvOpen (configPath (fac s) a) :: evs
            ++ [EvStore (clientKey (fac s) a) cl]).
    split; [simpl; by rewrite <- app_assoc|].
    simpl. rewrite forallb_app, (construction_no_lock evs Hevs). done.
Qed.

Lemma defaultScoped_index (meta : ObjectMeta) :
  defaultScoped meta
  = String.eqb (index (Labels meta) CustomProjectAliasLabel) "".
Proof. unfold defaultScoped. by destruct (Labels meta). Qed.

(** X6. [get] reads nothing of the metadata but the value of the
    tenant-alias label, a nil map and a missing label counting as the
    empty value: two metadata that agree on it give the same call, in
    every state. *)
Theorem get_reads_only_the_alias (meta1 meta2 : ObjectMeta) (s : State) :
  index (Labels meta1) CustomProjectAliasLabel
  = index (Labels meta2) CustomProjectAliasLabel →
  get meta1 s = get meta2 s.
Proof.
  intros Heq. unfold get. rewrite !defaultScoped_index, Heq. reflexivity.
Qed.

(** X7. A call of [get] for one tenant leaves the entries of the other
    tenants alone: for every alias other than the one in the metadata the
    key is another one and what the map holds under it is unchanged. *)
Theorem get_leaves_other_tenants_alone
    (meta : ObjectMeta) (s : State) r s' (b : string) :
  get meta s = Returns r s' →
  b ≠ index (Labels meta) CustomProjectAliasLabel →
  clientKey (fac s) b
  ≠ clientKey (fac s) (index (Labels meta) CustomProjectAliasLabel)
  ∧ clientKey (fac s') b = clientKey (fac s) b
  ∧ clients (fac s') !! clientKey (fac s') b
    = clients (fac s) !! clientKey (fac s) b.
Proof.
  intros Hget Hne.
  assert (Hkey : clientKey (fac s) b
    ≠ clientKey (fac s) (index (Labels meta) CustomProjectAliasLabel)).
  { intros Heq. by apply clientKey_inj in Heq. }
  split; [done|].
  apply get_returns_inv in Hget as [(_ & _ & ->)|(_ & _ & Hcase)]; [done|].
  assert (Hk : clientKey (fac s') b = clientKey (fac s) b).
  { destruct (getCase_frame _ _ _ _ Hcase) as (_ & Hk & _).
    unfold clientKey. by rewrite Hk. }
  split; [done|]. rewrite Hk.
  destruct Hcase as [Hd|mc Hd Hhit|cl e w evs a Hd Hmiss Hcons Hevs
                    |cl w evs a Hd Hmiss Hcons Hevs]; try done.
  simpl. by rewrite lookup_insert_ne.
Qed.

Lemma append_nil_l (t : string) : "" +:+ t = t.
Proof. reflexivity. Qed.

Lemma append_cons c (s t : string) : String c s +:+ t = String c (s +:+ t).
Proof. reflexivity. Qed.

Lemma noSlash_split (k1 k2 a1 a2 : string) :
  noSlash k1 = true → noSlash k2 = true →
  k1 +:+ "/" +:+ a1 = k2 +:+ "/" +:+ a2 →
  k1 = k2 ∧ a1 = a2.
Proof.
  revert k2. induction k1 as [|c1 k1 IH]; intros [|c2 k2] H1 H2 Heq.
  - rewrite !append_nil_l in Heq.
    by apply (inj (String.append "/")) in Heq.
  - rewrite append_nil_l, !append_cons, append_nil_l in Heq.
    injection Heq as <- _. done.
  - rewrite append_nil_l, !append_cons, append_nil_l in Heq.
    injection Heq as -> _. done.
  - rewrite !append_cons in Heq. injection Heq as -> Heq.
    simpl in H1, H2.
    apply andb_true_iff in H1 as [_ H1]. apply andb_true_iff in H2 as [_ H2].
    destruct (IH k2 H1 H2 Heq) as [-> ->]. done.
Qed.

Lemma supportedKind_noSlash (kind : string) :
  supportedKind kind = true → noSlash kind = true.
Proof.
  unfold supportedKind. intros H.
  repeat (apply orb_true_iff in H as [H|H]);
    apply String.eqb_eq in H; by subst.
Qed.

(** X8. For the five kinds of the switch a key names one kind and one
    alias: two factories of these kinds give the same key only for the
    same kind and the same alias, whatever the alias contains. *)
Theorem clientKey_names_kind_and_alias
    (c1 c2 : clientsFactory) (a1 a2 : string) :
  supportedKind (clientType c1) = true →
  supportedKind (clientType c2) = true →
  clientKey c1 a1 = clientKey c2 a2 →
  clientType c1 = clientType c2 ∧ a1 = a2.
Proof.
  intros H1 H2 Heq. unfold clientKey in Heq.
  apply noSlash_split in Heq; [done|by apply supportedKind_noSlash..].
Qed.

(** X9. Two tenants never share a configuration file: the paths of two
    aliases are the same only when the aliases are, for any two
    factories. *)
Theorem configPath_distinct_tenants (c1 c2 : clientsFactory) (a1 a2 : string) :
  configPath c1 a1 = configPath c2 a2 ↔ a1 = a2.
Proof.
  split; [apply configPath_inj|]. by intros ->.
Qed.

Lemma constructorCalls_call (tr : list Event) path (evs tl : list Event) :
  constructorCalls (tr ++ EvLock :: EvOpen path :: evs ++ tl)
  = constructorCalls tr + constructorCalls evs + constructorCalls tl.
Proof.
  rewrite call_trace, !constructorCalls_app.
  unfold constructorCalls at 2. simpl. lia.
Qed.

(** X10. On a factory just made by newClientsFactory the first call for a
    tenant never waits and always runs the construction: the file of the
    tenant is opened once, and either the client built is returned and is
    the only entry of the map, or the construction failed, one failure is
    logged, the default client is returned and the map is still empty. *)
Theorem first_get_on_a_new_factory
    (kind : string) (d : option ServiceClient) (w : World)
    (meta : ObjectMeta) :
  let a := index (Labels meta) CustomProjectAliasLabel in
  let c := newClientsFactory kind d in
  defaultScoped meta = false →
  ∃ r s',
    get meta (initial kind d w) = Returns r s'
    ∧ loaderCalls (configPath c a) (trace s') = 1
    ∧ ((clients (fac s') = {[ clientKey c a := r ]}
        ∧ failures (trace s') = 0)
       ∨ (r = d ∧ clients (fac s') = ∅ ∧ failures (trace s') = 1)).
Proof.
  intros a c Hd.
  destruct (get_cases meta (initial kind d w) eq_refl)
    as (r & s' & Hget & Hcase).
  exists r, s'. split; [done|].
  destruct Hcase as [Hd'|mc _ Hhit|cl e w1 evs a' _ Hmiss Hcons Hevs
                    |cl w1 evs a' _ Hmiss Hcons Hevs].
  - congruence.
  - simpl in Hhit. by rewrite lookup_empty in Hhit.
  - pose proof (loaderCalls_call (configPath c a) [] (configPath c a) evs
                  [EvErrorf failedGetFormat [AString a'; AError (Some e)];
                   EvUnlock] Hevs) as Hl.
    pose proof (failures_call [] (configPath c a) evs
                  [EvErrorf failedGetFormat [AString a'; AError (Some e)];
                   EvUnlock] Hevs) as Hf.
    rewrite decide_True in Hl by done. simpl in Hl, Hf.
    split; [exact Hl|]. right. split; [done|]. split; [done|exact Hf].
  - pose proof (loaderCalls_call (configPath c a) [] (configPath c a) evs
                  [EvStore (clientKey c a) cl; EvUnlock] Hevs) as Hl.
    pose proof (failures_call [] (configPath c a) evs
                  [EvStore (clientKey c a) cl; EvUnlock] Hevs) as Hf.
    rewrite decide_True in Hl by done. simpl in Hl, Hf.
    split; [exact Hl|]. left. split; [|exact Hf].
    simpl. by rewrite insert_empty.
Qed.

Lemma unsupported_stays_empty (kind : string) d w0 (s : State) :
  supportedKind kind = false →
  evolves (initial kind d w0) s →
  m (fac s) = false ∧ clientType (fac s) = kind
  ∧ defaultClient (fac s) = d ∧ clients (fac s) = ∅.
Proof.
  intros Hk Hev.
  induction Hev as [|s1 meta r s2 _ IH Hget|s1 w _ IH]; [done| |done].
  destruct IH as (Hm & Hkind & Hd & Hempty).
  destruct (get_unsupported meta s1) as (s2' & Hget' & Hempty');
    [by rewrite Hkind|done|done|].
  rewrite Hget in Hget'. injection Hget' as -> <-.
  apply get_returns_inv in Hget as [(_ & _ & ->)|(_ & _ & Hcase)]; [done|].
  destruct (getCase_frame _ _ _ _ Hcase) as (Hm2 & Hk2 & Hd2).
  repeat split; congruence.
Qed.

(** X11. A kind that the switch does not know is found out late: on a
    factory of such a kind every call for a tenant still takes the mutex,
    opens the file of the tenant and asks for a provider handle whenever
    the configuration parses, calls no typed constructor, logs one failure
    and returns the default client; nothing is remembered, so the next
    call does the same again. *)
Theorem unsupported_kind_loads_every_time
    (kind : string) (d : option ServiceClient) (w0 : World)
    (s : State) (meta : ObjectMeta) :
  let a := index (Labels meta) CustomProjectAliasLabel in
  supportedKind kind = false →
  evolves (initial kind d w0) s →
  defaultScoped meta = false →
  ∃ s' evs,
    get meta s = Returns d s'
    ∧ trace s' = trace s ++ evs
    ∧ loaderCalls (configPath (fac s) a) evs = 1
    ∧ constructorCalls evs = 0
    ∧ failures evs = 1
    ∧ clients (fac s') = ∅
    ∧ (∀ f w1 c w2,
         os_Open (configPath (fac s) a) (world s) = ((f, None), w1) →
         ReadConfig f w1 = ((c, None), w2) →
         EvNewOpenStackClient ∈ evs).
Proof.
  intros a Hk Hev Hd.
  destruct (unsupported_stays_empty _ _ _ _ Hk Hev)
    as (Hm & Hkind & Hdef & Hempty).
  destruct (get_cases meta s Hm) as (r & s' & Hget & Hcase).
  destruct Hcase as [Hd'|mc _ Hhit|cl e w1 evs a' _ Hmiss Hcons Hevs
                    |cl w1 evs a' _ Hmiss Hcons Hevs].
  - congruence.
  - by rewrite Hempty, lookup_empty in Hhit.
  - rewrite Hdef in Hget.
    eexists _, _. split; [exact Hget|]. split; [reflexivity|].
    pose proof (loaderCalls_call (configPath (fac s) a') [] (configPath (fac s) a')
                  evs [EvErrorf failedGetFormat [AString a'; AError (Some e)];
                       EvUnlock] Hevs) as Hl.
    pose proof (failures_call [] (configPath (fac s) a')
                  evs [EvErrorf failedGetFormat [AString a'; AError (Some e)];
                       EvUnlock] Hevs) as Hf.
    pose proof (constructorCalls_call [] (configPath (fac s) a')
                  evs [EvErrorf failedGetFormat [AString a'; AError (Some e)];
                       EvUnlock]) as Hc.
    rewrite decide_True in Hl by done.
    unfold loaderCalls in Hl. unfold failures in Hf.
    unfold constructorCalls in Hc. simpl in Hl, Hf, Hc.
    fold (loaderCalls (configPath (fac s) a')) in Hl.
    fold failures in Hf. fold constructorCalls in Hc.
    rewrite getProjectTypedClient_run in Hcons.
    unfold locked in Hcons.
    cbn [fac world trace set_m clientType] in Hcons.
    rewrite Hkind, (constructorOf_supported _ Hk) in Hcons.
    change (configPath (set_m true (fac s)) a') with (configPath (fac s) a')
      in Hcons.
    apply (f_equal (λ o, match o with
                         | Returns _ st => trace st
                         | _ => []
                         end)) in Hcons.
    assert (Hevs' : constructorCalls evs = 0
      ∧ ∀ f w1' c w2,
          os_Open (configPath (fac s) a') (world s) = ((f, None), w1') →
          ReadConfig f w1' = ((c, None), w2) →
          EvNewOpenStackClient ∈ evs).
    { destruct (os_Open _ _) as [[f [e1|]] w2].
      { cbn [trace] in Hcons. rewrite <- app_assoc in Hcons.
        apply app_inv_head in Hcons. simpl in Hcons.
        injection Hcons as <-. split; [reflexivity|]. by intros ? ? ? ? [=]. }
      destruct (ReadConfig f w2) as [[c [e1|]] w3] eqn:Hr.
      { cbn [trace] in Hcons. rewrite <- app_assoc in Hcons.
        apply app_inv_head in Hcons. simpl in Hcons.
        injection Hcons as <-. split; [reflexivity|].
        intros ? ? ? ? [= <- <-] Hr'. rewrite Hr in Hr'. done. }
      destruct (NewOpenStackClient _ _ _ _) as [[p [e1|]] w4].
      { cbn [trace] in Hcons. rewrite <- app_assoc in Hcons.
        apply app_inv_head in Hcons. simpl in Hcons.
        injection Hcons as <-. split; [reflexivity|]. intros.
        apply list_elem_of_further, list_elem_of_further, list_elem_of_here. }
      cbn [trace] in Hcons. rewrite <- app_assoc in Hcons.
      apply app_inv_head in Hcons. simpl in Hcons.
      injection Hcons as <-. split; [reflexivity|]. intros.
      apply list_elem_of_further, list_elem_of_further, list_elem_of_here. }
    destruct Hevs' as [Hc0 Hprov].
    split; [exact Hl|]. split.
    { refine (eq_trans Hc _).
      change (constructorCalls evs + 0 = 0). by rewrite Hc0. }
    split; [exact Hf|]. split; [done|].
    intros f w1' c w2 Ho Hr. specialize (Hprov _ _ _ _ Ho Hr).
    apply list_elem_of_further, list_elem_of_further, elem_of_app. by left.
  - destruct (getProjectTypedClient_spec a' (locked s))
      as (cl' & err & w' & evs' & Heq & _ & _ & _ & Hunk).
    rewrite Hcons in Heq. injection Heq as _ <- _.
    destruct (Hunk ltac:(by rewrite <- Hkind in Hk)). done.
Qed.

End MoreGet.

(** * The key of the routes kind *)

Section RoutesKey.
Context `{Ext : Externals}.

(** C6. The key of an alias is the kind, a slash and the alias: "network/acme"
    for kind network and alias acme, "routes/acme" for kind routes, two
    different keys. The switch has the same case for the two kinds: with
    the configuration read and the provider handle built, a routes factory
    and a network factory both call NewNetworkV2 with the same arguments.
    On a routes factory that has no entry for the alias acme, when the file
    opens, the configuration parses, the provider handle is built and
    NewNetworkV2 gives a client without an error, [get] returns that
    client and binds it under "routes/acme": the map afterwards is the old
    one with this one entry added, the entry at "network/acme" is as it
    was, and the calls made are, in this order, Lock, open, read, close,
    NewOpenStackClient, NewNetworkV2, the store under "routes/acme" and
    Unlock. Whatever a call of [get] for the alias acme on a routes
    factory does, it leaves the map as it was or binds "routes/acme" to
    the client it returns. *)
Theorem key_is_kind_slash_alias :
  (∀ (c : clientsFactory) (a : string),
     clientKey c a = clientType c +:+ "/" +:+ a)
  ∧ (∀ d, clientKey (newClientsFactory networkClientType d) "acme"
          = "network/acme"
          ∧ clientKey (newClientsFactory routesClientType d) "acme"
            = "routes/acme")
  ∧ "routes/acme" ≠ "network/acme"
  ∧ constructorOf routesClientType = constructorOf networkClientType
  ∧ (∀ (a : string) (s : State) cfg s1 p ok s2,
       clientType (fac s) = routesClientType
       ∨ clientType (fac s) = networkClientType →
       getProjectConfig a s = Returns (Some cfg, None) s1 →
       getProjectProvider (Some cfg) s1 = Returns (p, ok, None) s2 →
       getProjectTypedClient a s =
         typedArm EvNewNetworkV2 (NewNetworkV2 p (epOptsOf cfg))
           "Failed to create an OpenStack Network client: %v" s2)
  ∧ (∀ (meta : ObjectMeta) (s : State) f w1 cfg w2 p w3 cl w4,
       let path := configPath (fac s) "acme" in
       clientType (fac s) = routesClientType →
       index (Labels meta) CustomProjectAliasLabel = "acme" →
       m (fac s) = false →
       clients (fac s) !! "routes/acme" = None →
       os_Open path (world s) = ((f, None), w1) →
       ReadConfig f w1 = ((cfg, None), w2) →
       NewOpenStackClient (Global cfg) "openstack-cloud-controller-manager"
         userAgentData (File_Close f w2) = ((p, None), w3) →
       NewNetworkV2 p (epOptsOf cfg) w3 = ((cl, None), w4) →
       ∃ s',
         get meta s = Returns cl s'
         ∧ clients (fac s') = <["routes/acme" := cl]> (clients (fac s))
         ∧ clients (fac s') !! "routes/acme" = Some cl
         ∧ clients (fac s') !! "network/acme"
           = clients (fac s) !! "network/acme"
         ∧ world s' = w4
         ∧ trace s'
           = trace s ++ [EvLock; EvOpen path; EvReadConfig; EvClose;
                         EvNewOpenStackClient; EvNewNetworkV2;
                         EvStore "routes/acme" cl; EvUnlock])
  ∧ (∀ (meta : ObjectMeta) (s : State) r s',
       clientType (fac s) = routesClientType →
       index (Labels meta) CustomProjectAliasLabel = "acme" →
       get meta s = Returns r s' →
       (clients (fac s') = clients (fac s)
        ∨ (clients (fac s) !! "routes/acme" = None
           ∧ clients (fac s') = <["routes/acme" := r]> (clients (fac s))))
       ∧ clients (fac s') !! "network/acme"
         = clients (fac s) !! "network/acme").
Proof.
  split; [done|]. split; [done|]. split; [done|]. split; [done|].
  split; [|split].
  - intros a s cfg s1 p ok s2 Hkind Hc Hp.
    rewrite (getProjectTypedClient_switch _ _ _ _ _ _ _ Hc Hp).
    by destruct Hkind as [-> | ->].
  - intros meta s f w1 cfg w2 p w3 cl w4 path Hkind Halias Hm Hmiss
      Hopen Hread Hprov Hnet.
    assert (Hkey : clientKey (fac s) "acme" = "routes/acme").
    { unfold clientKey. by rewrite Hkind. }
    assert (Hrun : getProjectTypedClient "acme" (locked s)
                   = Returns (cl, None)
                       {| fac := fac (locked s); world := w4;
                          trace := trace (locked s)
                                   ++ [EvOpen path; EvReadConfig; EvClose;
                                       EvNewOpenStackClient; EvNewNetworkV2] |}).
    { rewrite getProjectTypedClient_run.
      change (configPath (fac (locked s)) "acme") with path.
      change (world (locked s)) with (world s).
      change (clientType (fac (locked s))) with (clientType (fac s)).
      rewrite Hopen, Hread, Hprov, Hkind.
      change (constructorOf routesClientType)
        with (Some (EvNewNetworkV2, NewNetworkV2,
                    "Failed to create an OpenStack Network client: %v")).
      cbv beta iota. by rewrite Hnet. }
    destruct (get_cases meta s Hm) as (r & s' & Hget & Hcase).
    destruct Hcase as [Hd|mc Hd Hhit|cl' e w evs a Hd Hmiss' Hcons Hevs
                      |cl' w evs a Hd Hmiss' Hcons Hevs].
    + rewrite defaultScoped_index, Halias in Hd. discriminate Hd.
    + rewrite Halias, Hkey, Hmiss in Hhit. discriminate Hhit.
    + subst a. rewrite Halias, Hrun in Hcons. discriminate Hcons.
    + subst a. rewrite Halias in Hcons, Hget.
      rewrite Hkey in Hget. rewrite Hrun in Hcons.
      injection Hcons as <- <- Htr.
      change (trace (locked s)) with (trace s ++ [EvLock]) in Htr.
      rewrite <- app_assoc in Htr. apply app_inv_head in Htr.
      injection Htr as <-.
      fold path in Hget.
      eexists. split; [exact Hget|]. cbn [fac world trace clients set_clients].
      split; [done|]. split; [by rewrite lookup_insert_eq|].
      split; [by rewrite lookup_insert_ne|]. split; [done|]. done.
  - intros meta s r s' Hkind Halias Hget.
    assert (Hkey : clientKey (fac s) (index (Labels meta) CustomProjectAliasLabel)
                   = "routes/acme").
    { unfold clientKey. by rewrite Hkind, Halias. }
    apply get_returns_inv in Hget as [(_ & _ & ->)|(_ & _ & Hcase)];
      [by split; [left|]|].
    destruct Hcase as [Hd|mc Hd Hhit|cl e w evs a Hd Hmiss Hcons Hevs
                      |cl w evs a Hd Hmiss Hcons Hevs];
      try (by split; [left|]).
    subst a. simpl. rewrite Hkey in *. split; [by right|].
    by rewrite lookup_insert_ne.
Qed.

End RoutesKey.

(** The tenant acme on a routes factory: the client NewNetworkV2 hands out
    is returned and sits under "routes/acme", nothing under "network/acme". *)
Lemma key_is_kind_slash_alias_witness :
  ∃ s' : @State demoExt,
    get (metaOf "acme") (demoInitial "routes")
    = Returns (Some (ServiceClientAt 4)) s'
    ∧ clients (fac s') !! "routes/acme" = Some (Some (ServiceClientAt 4))
    ∧ clients (fac s') !! "network/acme" = None
    ∧ trace s'
      = [EvLock; EvOpen "/etc/config//acme.conf"; EvReadConfig; EvClose;
         EvNewOpenStackClient; EvNewNetworkV2;
         EvStore "routes/acme" (Some (ServiceClientAt 4)); EvUnlock].
Proof.
  pose proof (key_is_kind_slash_alias (Ext := demoExt))
    as (_ & _ & _ & _ & _ & Hstore & _).
  destruct (Hstore (metaOf "acme") (demoInitial "routes")
              (Some (FileAt 2)) 3%positive ("RegionOne", "public") 3%positive
              (Some (ProviderClientAt 3)) 4%positive
              (Some (ServiceClientAt 4)) 5%positive
              eq_refl eq_refl eq_refl eq_refl eq_refl eq_refl eq_refl eq_refl)
    as (s' & Hget & _ & Hroutes & Hnetwork & _ & Htrace).
  exists s'. split; [exact Hget|]. split; [exact Hroutes|].
  split; [exact Hnetwork|exact Htrace].
Defined.

(** * Interleavings of any calls *)

Section MoreConcurrent.
Context `{Ext : Externals}.

Lemma schedule_stepThread (i : nat) (cf cf' : Conf) :
  schedule i cf = Some cf' →
  ∃ pc pc',
    threads cf !! i = Some pc
    ∧ stepThread pc (shared cf) = Returns pc' (shared cf')
    ∧ threads cf' = <[i := pc']> (threads cf).
Proof.
  unfold schedule. destruct (threads cf !! i) as [pc|] eqn:Hi; [|done].
  destruct (stepThread pc (shared cf)) as [pc' s'| |] eqn:Hstep; [|done..].
  intros [= <-]. by exists pc, pc'.
Qed.

Lemma runThread_zero (pc : Pc) (s : State) : runThread 0 pc s = Returns pc s.
Proof. by destruct pc. Qed.

Lemma runThread_finished (n : nat) r (s : State) :
  runThread n (Finished r) s = Returns (Finished r) s.
Proof. by destruct n. Qed.

Lemma runThread_succ (n : nat) (pc : Pc) (s : State) :
  isFinished pc = false →
  runThread (S n) pc s
  = match stepThread pc s with
    | Returns pc' s' => runThread n pc' s'
    | Blocks => Blocks
    | Panics => Panics
    end.
Proof. by destruct pc. Qed.

Lemma stepThread_not_finished (pc : Pc) (s : State) pc' s' :
  stepThread pc s = Returns pc' s' → isFinished pc = false.
Proof. by destruct pc. Qed.

Lemma runThread_snoc (n : nat) (pc : Pc) (s : State) pc1 s1 pc2 s2 :
  runThread n pc s = Returns pc1 s1 →
  stepThread pc1 s1 = Returns pc2 s2 →
  runThread (S n) pc s = Returns pc2 s2.
Proof.
  revert pc s. induction n as [|n IH]; intros pc s Hrun Hstep.
  - rewrite runThread_zero in Hrun. injection Hrun as <- <-.
    rewrite runThread_succ by (by eapply stepThread_not_finished).
    rewrite Hstep. apply runThread_zero.
  - destruct (isFinished pc) eqn:Hfin.
    { destruct pc; try done. rewrite runThread_finished in Hrun.
      injection Hrun as <- <-. discriminate Hstep. }
    rewrite runThread_succ in Hrun by done.
    rewrite runThread_succ by done.
    destruct (stepThread pc s) as [p s'| |]; [|done..].
    by apply IH.
Qed.

Lemma runThread_finished_le (n k : nat) (pc : Pc) (s : State) r s' :
  runThread n pc s = Returns (Finished r) s' →
  n ≤ k →
  runThread k pc s = Returns (Finished r) s'.
Proof.
  revert k pc s. induction n as [|n IH]; intros k pc s Hrun Hle.
  - rewrite runThread_zero in Hrun. injection Hrun as -> ->.
    apply runThread_finished.
  - destruct k as [|k]; [lia|].
    destruct (isFinished pc) eqn:Hfin.
    { by destruct pc. }
    rewrite runThread_succ in Hrun by done.
    rewrite runThread_succ by done.
    destruct (stepThread pc s) as [p s1| |]; [|done..].
    apply IH; [done|lia].
Qed.

Lemma runThread_is_get (n : nat) (meta : ObjectMeta) (s : State) r s' :
  runThread n (AtEntry meta) s = Returns (Finished r) s' →
  n ≤ 6 →
  get meta s = Returns r s'.
Proof.
  intros Hrun Hle.
  pose proof (runThread_finished_le _ 6 _ _ _ _ Hrun Hle) as H6.
  rewrite runThread_get in H6.
  unfold mbind, M_bind, bind, mret, M_ret, ret in H6.
  destruct (get meta s) as [r0 s0| |]; [|done..].
  by injection H6 as -> ->.
Qed.

Lemma runGets_snoc (ms : list ObjectMeta) (s : State) rs sq meta r s' :
  runGets ms s = Returns rs sq →
  get meta sq = Returns r s' →
  runGets (ms ++ [meta]) s = Returns (rs ++ [r]) s'.
Proof.
  revert s rs. induction ms as [|m0 ms IH]; intros s rs Hrun Hget; simpl in *;
    unfold mbind, M_bind, bind, mret, M_ret, ret in *.
  - injection Hrun as <- <-. by rewrite Hget.
  - destruct (get m0 s) as [r0 s1| |]; [|done..].
    destruct (runGets ms s1) as [rs1 s2| |] eqn:Hrest; [|done..].
    injection Hrun as <- <-.
    by rewrite (IH s1 rs1 Hrest Hget).
Qed.

Lemma get_default_path (meta : ObjectMeta) (s : State) :
  defaultScoped meta = true → get meta s = Returns (defaultClient (fac s)) s.
Proof.
  intros Hd. unfold get, mbind, M_bind, bind, this. by rewrite Hd.
Qed.

Lemma Forall2_finished_insert (ts : list Pc) (order : list nat)
    (rs : list (option ServiceClient)) i pc' :
  i ∉ order →
  Forall2 (λ k r, ts !! k = Some (Finished r)) order rs →
  Forall2 (λ k r, <[i := pc']> ts !! k = Some (Finished r)) order rs.
Proof.
  intros Hni H. induction H as [|k r order rs Hk _ IH]; [constructor|].
  apply not_elem_of_cons in Hni as [Hne Hni]. constructor; [|by apply IH].
  by rewrite list_lookup_insert_ne.
Qed.

Lemma Placed_idle (metas : list ObjectMeta) order (sq s sq' s' : State) i pc :
  inCS pc = false →
  Placed metas order sq s i pc → Placed metas order sq' s' i pc.
Proof. unfold Placed. by intros ->. Qed.

Lemma Placed_snoc (metas : list ObjectMeta) order (sq s : State) i j pc :
  j ≠ i →
  Placed metas order sq s j pc → Placed metas (order ++ [i]) sq s j pc.
Proof.
  unfold Placed. intros Hne. destruct (isFinished pc).
  - intros H. apply elem_of_app. by left.
  - intros [Hni H]. split; [|done].
    intros [?|?%list_elem_of_singleton]%elem_of_app; done.
Qed.

Lemma threadStep_mutex (pc : Pc) (s : State) pc' s' :
  threadStep pc s pc' s' → inCS pc' = inCS pc → m (fac s') = m (fac s).
Proof. by destruct 1. Qed.

Lemma Serial_start (metas : list ObjectMeta) (s0 : State) :
  m (fac s0) = false → Serial metas s0 (start metas s0).
Proof.
  intros Hm. exists [], [], [], s0, None. unfold start. simpl.
  assert (Hentry : ∀ i pc, (AtEntry <$> metas) !! i = Some pc →
            ∃ meta, pc = AtEntry meta ∧ metas !! i = Some meta).
  { intros i pc Hi. rewrite list_lookup_fmap in Hi.
    destruct (metas !! i) as [meta|] eqn:Hmeta; [|done].
    injection Hi as <-. by exists meta. }
  split; [constructor|]. split; [constructor|]. split; [constructor|].
  split; [done|]. split; [by rewrite length_fmap|]. split; [done|].
  split; [by rewrite Hm|]. split.
  { split; [done|]. intros i pc (meta & -> & _)%Hentry. done. }
  split; [done|].
  intros i pc (meta & -> & Hmeta)%Hentry. unfold Placed. simpl.
  split; [by apply not_elem_of_nil|]. exists meta. split; [done|by left].
Qed.

Lemma Serial_step (metas : list ObjectMeta) (s0 : State) (i : nat)
    (cf cf' : Conf) :
  Serial metas s0 cf → schedule i cf = Some cf' → Serial metas s0 cf'.
Proof.
  intros (order & ms & rs & sq & h & Hnd & Hms & Hrs & Hrun & Hlen & Hdef
          & Hm & Hhold & Hfree & Hpl) Hsched.
  apply schedule_stepThread in Hsched as (pc & pc' & Hi & Hst & Hts).
  pose proof (stepThread_cases _ _ _ _ Hst) as Hstep.
  pose proof (Hpl i pc Hi) as Hpi. unfold Placed in Hpi.
  rewrite (stepThread_not_finished _ _ _ _ Hst) in Hpi.
  destruct Hpi as (Hni & meta & Hmeta & Hwhere).
  destruct cf as [ts s], cf' as [ts' s']. simpl in *. subst ts'.
  pose proof (threadStep_frame _ _ _ _ Hstep) as [_ Hdef'].
  destruct (isFinished pc') eqn:Hfin'.
  - (* the goroutine returns: its call is the next one of the run *)
    assert (∃ r, pc' = Finished r) as [r ->] by (destruct pc'; by eauto).
    assert (Hget : get meta sq = Returns r (if inCS pc then s' else sq)
                   ∧ (inCS pc = false → s' = s)
                   ∧ (inCS pc = true → m (fac s') = false)).
    { inversion Hstep; subst; simpl in *.
      - destruct Hwhere as [[= <-]|[? _]]; [|done].
        split; [|done]. rewrite Hdef. by apply get_default_path.
      - destruct Hwhere as (n & Hn & Hrunt).
        split; [|done].
        eapply (runThread_is_get (S n)); [|lia].
        by eapply runThread_snoc. }
    destruct Hget as (Hget & Hsame & Hfree').
    exists (order ++ [i]), (ms ++ [meta]), (rs ++ [r]),
      (if inCS pc then s' else sq), (if inCS pc then None else h).
    cbn [threads shared].
    split; [apply NoDup_app; split; [done|]; split;
            [by intros ? ? ->%list_elem_of_singleton|apply NoDup_singleton]|].
    split; [apply Forall2_app; [done|by constructor]|].
    split.
    { apply Forall2_app; [by apply Forall2_finished_insert|].
      constructor; [|constructor]. by eapply lookup_insert_here. }
    split; [by eapply runGets_snoc|].
    split; [by rewrite length_insert|].
    destruct (inCS pc) eqn:Hcs.
    + assert (h = Some i) as ->.
      { destruct Hhold as [_ Hh]. by apply (Hh i pc Hi). }
      split; [done|]. split; [by rewrite Hfree'|].
      split; [by eapply holderOf_release|]. split; [done|].
      intros j x [[-> ->]|[Hne Hj]]%lookup_insert_cases.
      * unfold Placed. simpl. apply elem_of_app. right.
        by apply list_elem_of_singleton.
      * apply Placed_snoc; [done|].
        pose proof (holderOf_others ts _ i pc Hhold Hi Hcs j x Hne Hj).
        eapply Placed_idle; [done|]. by apply Hpl.
    + rewrite (Hsame eq_refl) in *.
      split; [done|]. split; [done|].
      split; [by eapply holderOf_same|]. split; [done|].
      intros j x [[-> ->]|[Hne Hj]]%lookup_insert_cases.
      * unfold Placed. simpl. apply elem_of_app. right.
        by apply list_elem_of_singleton.
      * apply Placed_snoc; [done|]. by apply Hpl.
  - (* the goroutine goes on *)
    destruct (inCS pc) eqn:Hcs.
    + (* it holds the mutex and keeps it *)
      assert (Hcs' : inCS pc' = true).
      { inversion Hstep; subst; simpl in *; done. }
      assert (h = Some i) as ->.
      { destruct Hhold as [_ Hh]. by apply (Hh i pc Hi). }
      destruct Hwhere as (n & Hn & Hrunt).
      exists order, ms, rs, sq, (Some i). cbn [threads shared].
      split; [done|]. split; [done|].
      split; [by apply Forall2_finished_insert|].
      split; [done|]. split; [by rewrite length_insert|].
      split; [congruence|].
      split.
      { rewrite <- Hm. eapply threadStep_mutex; [done|congruence]. }
      split; [eapply holderOf_same; [done..|congruence]|].
      split; [done|].
      intros j x [[-> ->]|[Hne Hj]]%lookup_insert_cases.
      * unfold Placed. rewrite Hfin', Hcs'.
        split; [done|]. exists meta. split; [done|].
        exists (S n). split.
        { pose proof (threadStep_rank _ _ _ _ Hstep). lia. }
        by eapply runThread_snoc.
      * pose proof (holderOf_others ts _ i pc Hhold Hi Hcs j x Hne Hj).
        eapply Placed_idle; [done|]. by apply Hpl.
    + (* it does not hold the mutex yet *)
      inversion Hstep; subst; simpl in *; try done.
      * (* line 41, a tenant *)
        destruct Hwhere as [[= <-]|[? _]]; [|done].
        exists order, ms, rs, sq, h. cbn [threads shared].
        split; [done|]. split; [done|].
        split; [by apply Forall2_finished_insert|].
        split; [done|]. split; [by rewrite length_insert|].
        split; [done|]. split; [done|].
        split; [by eapply holderOf_same|]. split; [done|].
        intros j x [[-> ->]|[Hne Hj]]%lookup_insert_cases.
        -- unfold Placed. simpl. split; [done|]. eexists.
           split; [exact Hmeta|]. by right.
        -- by apply Hpl.
      * (* Lock *)
        destruct Hwhere as [[=]|[[= ->] Hscoped]].
        assert (h = None) as ->.
        { destruct h; [|done]. rewrite bool_decide_eq_true_2 in Hm by eauto.
          congruence. }
        rewrite (Hfree eq_refl) in *.
        exists order, ms, rs, sq, (Some i). cbn [threads shared].
        split; [done|]. split; [done|].
        split; [by apply Forall2_finished_insert|].
        split; [done|]. split; [by rewrite length_insert|].
        split; [done|]. split; [done|].
        split; [by eapply holderOf_acquire|]. split; [done|].
        intros j x [[-> ->]|[Hne Hj]]%lookup_insert_cases.
        -- unfold Placed. simpl. split; [done|]. eexists.
           split; [exact Hmeta|]. exists 2. split; [lia|].
           eapply (runThread_snoc 1 _ _
                     (AtLock (index (Labels meta) CustomProjectAliasLabel)) sq);
             [|exact Hst].
           eapply runThread_snoc; [apply runThread_zero|].
           simpl. unfold mbind, M_bind, bind, this, mret, M_ret, ret.
           by rewrite Hscoped.
        -- assert (inCS x = false).
           { destruct Hhold as [_ Hh]. destruct (inCS x) eqn:Hx; [|done].
             by apply (Hh j x Hj) in Hx. }
           eapply Placed_idle; [done|]. by apply Hpl.
Qed.

Lemma Serial_exec (metas : list ObjectMeta) (s0 : State) (sched : list nat)
    (cf cf' : Conf) :
  Serial metas s0 cf → exec sched cf = Some cf' → Serial metas s0 cf'.
Proof.
  revert cf. induction sched as [|i sched IH]; intros cf Hinv; simpl.
  - by intros [= <-].
  - destruct (schedule i cf) as [cf1|] eqn:Hs; [|done].
    apply IH. by eapply Serial_step.
Qed.

Lemma holder_progress (cf : Conf) (h : option nat) :
  m (fac (shared cf)) = bool_decide (is_Some h) →
  holderOf (threads cf) h →
  allFinished cf = false →
  ∃ i cf', schedule i cf = Some cf'.
Proof.
  intros Hm [Hex Hh] Hnot.
  assert (Hgo : ∀ i pc, threads cf !! i = Some pc →
            isFinished pc = false →
            (∀ x, pc = AtLock x → m (fac (shared cf)) = false) →
            (∀ r, pc = AtUnlock r → m (fac (shared cf)) = true) →
            ∃ i cf', schedule i cf = Some cf').
  { intros i pc Hi Hfin Hl Hu.
    destruct (stepThread_enabled pc (shared cf) Hfin Hl Hu) as (pc' & s' & Hs).
    exists i. unfold schedule. rewrite Hi, Hs. by eexists. }
  destruct h as [i|].
  - destruct (Hex i eq_refl) as [pc Hi].
    assert (Hcs : inCS pc = true) by (by apply (Hh i pc Hi)).
    apply (Hgo i pc Hi).
    + by destruct pc.
    + intros x ->. done.
    + intros r _. exact Hm.
  - apply forallb_false_lookup in Hnot as (i & pc & Hi & Hfin).
    assert (Hcs : inCS pc = false).
    { destruct (inCS pc) eqn:Hcs; [|done]. by apply (Hh i pc Hi) in Hcs. }
    apply (Hgo i pc Hi Hfin).
    + intros x _. exact Hm.
    + intros r ->. done.
Qed.

Lemma Serial_completes (metas : list ObjectMeta) (s0 : State) (cf : Conf) :
  Serial metas s0 cf →
  ∃ sched cf', exec sched cf = Some cf' ∧ allFinished cf' = true.
Proof.
  remember (remaining (threads cf)) as n eqn:Hn.
  revert cf Hn. induction (lt_wf n) as [n _ IH]. intros cf -> Hinv.
  destruct (allFinished cf) eqn:Hfin.
  - by exists [], cf.
  - assert (∃ i cf1, schedule i cf = Some cf1) as (i & cf1 & Hs).
    { destruct Hinv as (? & ? & ? & ? & h & _ & _ & _ & _ & _ & _ & Hm & Hh & _).
      by eapply holder_progress. }
    destruct (IH _ (schedule_remaining _ _ _ Hs) cf1 eq_refl)
      as (sched & cf' & Hex & Hall); [by eapply Serial_step|].
    exists (i :: sched), cf'. simpl. by rewrite Hs.
Qed.

Lemma Serial_finished_free (metas : list ObjectMeta) (s0 : State) (cf : Conf) :
  Serial metas s0 cf → allFinished cf = true → m (fac (shared cf)) = false.
Proof.
  intros (? & ? & ? & ? & h & _ & _ & _ & _ & _ & _ & Hm & [Hex Hh] & _) Hall.
  destruct h as [i|]; [|done].
  destruct (Hex i eq_refl) as [pc Hi].
  assert (Hcs : inCS pc = true) by (by apply (Hh i pc Hi)).
  unfold allFinished in Hall. rewrite forallb_forall in Hall.
  specialize (Hall pc). rewrite <- list_elem_of_In in Hall.
  specialize (Hall (list_elem_of_lookup_2 _ _ _ Hi)). by destruct pc.
Qed.

(** With the mutex held exactly by the goroutine in the critical section,
    no goroutine can panic, and the only ones that cannot step are those
    that have returned and those that wait at Lock for a held mutex. *)
Lemma holder_no_panic (cf : Conf) (h : option nat) :
  m (fac (shared cf)) = bool_decide (is_Some h) →
  holderOf (threads cf) h →
  ∀ i pc,
    threads cf !! i = Some pc →
    stepThread pc (shared cf) ≠ Panics
    ∧ (stepThread pc (shared cf) = Blocks →
       isFinished pc = true
       ∨ ((∃ a, pc = AtLock a) ∧ m (fac (shared cf)) = true)).
Proof.
  intros Hm [Hex Hh] i pc Hi.
  destruct (isFinished pc) eqn:Hfin.
  { destruct pc; try discriminate Hfin. simpl. by split; [|left]. }
  assert (Hen : (∀ a, pc = AtLock a → m (fac (shared cf)) = false) →
                ∃ pc' s', stepThread pc (shared cf) = Returns pc' s').
  { intros Hl. apply stepThread_enabled; [done|done|].
    intros r ->. rewrite Hm. apply bool_decide_eq_true_2.
    rewrite (proj1 (Hh i _ Hi) eq_refl). by eexists. }
  destruct (m (fac (shared cf))) eqn:Hheld.
  - destruct pc as [meta|a|a|a|a tc|r|r];
      try (destruct Hen as (pc' & s' & ->); [by intros|by split]).
    simpl. unfold mbind, M_bind, bind, Lock. rewrite Hheld.
    split; [done|]. intros _. right. by split; [eexists|].
  - destruct Hen as (pc' & s' & ->); [done|by split].
Qed.

(** X12. Goroutines that call [get] with any metadata, tenants and
    default scope mixed, on a factory whose mutex is free: at every point
    of every interleaving at most one of them is between its Lock and its
    Unlock, and the mutex is held exactly when one is. No interleaving
    gets stuck or panics before all have returned: at every point no
    goroutine's next step panics (Unlock is never reached with the mutex
    free), the only goroutines that cannot take a step are those that have
    returned and those that wait at Lock while another holds the mutex,
    and some goroutine can step as long as not all have returned. None is
    longer than six steps per goroutine, each can be carried on until all
    have returned, and the mutex is free then. *)
Theorem goroutines_exclude_each_other
    (metas : list ObjectMeta) (s0 : State) (sched : list nat) (cf : Conf) :
  m (fac s0) = false →
  exec sched (start metas s0) = Some cf →
  (∀ i j pi pj,
     threads cf !! i = Some pi → threads cf !! j = Some pj →
     inCS pi = true → inCS pj = true → i = j)
  ∧ (m (fac (shared cf)) = true
     ↔ ∃ i pc, threads cf !! i = Some pc ∧ inCS pc = true)
  ∧ (∀ i pc,
       threads cf !! i = Some pc →
       stepThread pc (shared cf) ≠ Panics
       ∧ (stepThread pc (shared cf) = Blocks →
          isFinished pc = true
          ∨ ((∃ a, pc = AtLock a) ∧ m (fac (shared cf)) = true)))
  ∧ (allFinished cf = false → ∃ i cf', schedule i cf = Some cf')
  ∧ length sched ≤ 6 * length metas
  ∧ ∃ sched' cf',
      exec (sched ++ sched') (start metas s0) = Some cf'
      ∧ allFinished cf' = true
      ∧ m (fac (shared cf')) = false.
Proof.
  intros Hm Hexec.
  assert (Hser : Serial metas s0 cf).
  { eapply Serial_exec; [|exact Hexec]. by apply Serial_start. }
  pose proof Hser
    as (? & ? & ? & ? & h & _ & _ & _ & _ & _ & _ & Hmh & Hhold & _).
  pose proof Hhold as [Hex Hh].
  split.
  { intros i j pi pj Hi Hj Hci Hcj.
    apply (Hh i pi Hi) in Hci. apply (Hh j pj Hj) in Hcj. congruence. }
  split.
  { rewrite Hmh. split.
    - intros Hheld. destruct h as [i|]; [|done].
      destruct (Hex i eq_refl) as [pc Hi]. exists i, pc.
      split; [done|]. by apply (Hh i pc Hi).
    - intros (i & pc & Hi & Hcs). apply (Hh i pc Hi) in Hcs as ->.
      by apply bool_decide_eq_true_2. }
  split; [by eapply holder_no_panic|].
  split; [by eapply holder_progress|].
  split.
  { pose proof (exec_length _ _ _ Hexec) as Hlen. unfold start in Hlen.
    simpl in Hlen. rewrite remaining_start in Hlen. lia. }
  destruct (Serial_completes _ _ _ Hser) as (sched' & cf' & Hex' & Hall).
  exists sched', cf'. split; [by rewrite exec_app, Hexec|]. split; [done|].
  eapply Serial_finished_free; [|done]. by eapply Serial_exec.
Qed.


Lemma runGets_results (ms : list ObjectMeta) (s : State) rs s' :
  runGets ms s = Returns rs s' →
  evolves s s'
  ∧ Forall2
      (λ meta r,
         r = defaultClient (fac s)
         ∨ clients (fac s')
             !! clientKey (fac s) (index (Labels meta) CustomProjectAliasLabel)
           = Some r)
      ms rs.
Proof.
  revert s rs. induction ms as [|m0 ms IH]; intros s rs Hrun; simpl in Hrun;
    unfold mbind, M_bind, bind, mret, M_ret, ret in Hrun.
  - injection Hrun as <- <-. split; [apply evolves_refl|constructor].
  - destruct (get m0 s) as [r0 s1| |] eqn:Hget; [|done..].
    destruct (runGets ms s1) as [rs1 s2| |] eqn:Hrest; [|done..].
    injection Hrun as <- <-.
    destruct (IH _ _ Hrest) as [Hev Hall].
    assert (Hev1 : evolves s s1) by (eapply evolves_get; [apply evolves_refl|done]).
    destruct (evolves_fields _ _ Hev1) as (_ & Hk1 & Hd1).
    assert (Hkey : ∀ a, clientKey (fac s1) a = clientKey (fac s) a).
    { intros a. unfold clientKey. by rewrite Hk1. }
    split; [by eapply evolves_trans|].
    constructor.
    + apply get_returns_inv in Hget as [(_ & -> & _)|(_ & _ & Hcase)];
        [by left|].
      destruct Hcase as [Hd|mc Hd Hhit|cl e w evs a Hd Hmiss Hcons Hevs
                        |cl w evs a Hd Hmiss Hcons Hevs]; try (by left).
      * right. by eapply evolves_mono.
      * right. eapply evolves_mono; [done|]. simpl. apply lookup_insert_eq.
    + eapply Forall2_impl; [exact Hall|].
      intros meta r [->|Hb]; [left; congruence|right]. by rewrite <- Hkey.
Qed.

(** X14. The cache stays coherent under any interleaving of any calls:
    when all goroutines have returned, every entry the map held at the
    start is still there unchanged, and what a goroutine returned is the
    default client or the client the map now holds under the key of its
    alias. So two goroutines for the same tenant that did not fall back to
    the default client returned the same client. *)
Theorem interleaved_gets_agree
    (metas : list ObjectMeta) (s0 : State) (sched : list nat) (cf : Conf) :
  m (fac s0) = false →
  exec sched (start metas s0) = Some cf →
  allFinished cf = true →
  (∀ k v, clients (fac s0) !! k = Some v →
          clients (fac (shared cf)) !! k = Some v)
  ∧ (∀ i meta r,
       metas !! i = Some meta →
       threads cf !! i = Some (Finished r) →
       r = defaultClient (fac s0)
       ∨ clients (fac (shared cf))
           !! clientKey (fac s0) (index (Labels meta) CustomProjectAliasLabel)
         = Some r)
  ∧ (∀ i j mi mj ri rj,
       metas !! i = Some mi → metas !! j = Some mj →
       threads cf !! i = Some (Finished ri) →
       threads cf !! j = Some (Finished rj) →
       index (Labels mi) CustomProjectAliasLabel
       = index (Labels mj) CustomProjectAliasLabel →
       ri ≠ defaultClient (fac s0) → rj ≠ defaultClient (fac s0) →
       ri = rj).
Proof.
  intros Hm Hexec Hall.
  assert (Hser : Serial metas s0 cf).
  { eapply Serial_exec; [|exact Hexec]. by apply Serial_start. }
  pose proof (Serial_finished_free _ _ _ Hser Hall) as Hfree.
  destruct Hser as (order & ms & rs & sq & h & Hnd & Hms & Hrs & Hrun & Hlen
                    & _ & Hmh & _ & Hsq & Hpl).
  assert (h = None) as ->.
  { destruct h; [|done]. rewrite bool_decide_eq_true_2 in Hmh by eauto.
    congruence. }
  rewrite <- (Hsq eq_refl) in Hrun.
  destruct (runGets_results _ _ _ _ Hrun) as [Hev Hres].
  assert (Hone : ∀ i meta r,
    metas !! i = Some meta →
    threads cf !! i = Some (Finished r) →
    r = defaultClient (fac s0)
    ∨ clients (fac (shared cf))
        !! clientKey (fac s0) (index (Labels meta) CustomProjectAliasLabel)
      = Some r).
  { intros i meta r Hmeta Hi.
    pose proof (Hpl i _ Hi) as Hin. unfold Placed in Hin. simpl in Hin.
    apply list_elem_of_lookup_1 in Hin as [k Hk].
    destruct (Forall2_lookup_l _ _ _ _ _ Hms Hk) as (meta' & Hmk & Hmeta').
    destruct (Forall2_lookup_l _ _ _ _ _ Hrs Hk) as (r' & Hrk & Hi').
    assert (meta' = meta) as -> by congruence.
    assert (r' = r) as -> by congruence.
    destruct (Forall2_lookup_l _ _ _ _ _ Hres Hmk) as (r'' & Hrk' & Hprop).
    assert (r'' = r) as -> by congruence.
    exact Hprop. }
  split; [by apply evolves_mono|]. split; [exact Hone|].
  intros i j mi mj ri rj Hmi Hmj Hi Hj Halias Hni Hnj.
  destruct (Hone i mi ri Hmi Hi) as [?|Hbi]; [done|].
  destruct (Hone j mj rj Hmj Hj) as [?|Hbj]; [done|].
  rewrite Halias in Hbi. congruence.
Qed.

End MoreConcurrent.

(** ** The same in the small worlds *)

Lemma getProjectConfig_closes_what_it_opens_witness :
  ∃ cfg err w evs,
    @getProjectConfig harshExt "broken" (harshInitial "compute")
    = Returns (cfg, err)
        {| fac := fac (harshInitial "compute"); world := w;
           trace := trace (harshInitial "compute") ++ evs |}
    ∧ externalCalls evs
      = [EvOpen "/etc/config//broken.conf"; EvReadConfig; EvClose]
    ∧ err = Some ("failed to read cloud provider configuration "
                  +:+ "/etc/config//broken.conf" +:+ ": " +:+ "unexpected EOF").
Proof.
  destruct (getProjectConfig_closes_what_it_opens (Ext := harshExt)
              "broken" (harshInitial "compute"))
    as (cfg & err & w & evs & Hrun & _ & Hcalls & _ & Hread).
  exists cfg, err, w, evs. split; [exact Hrun|]. split; [exact Hcalls|].
  exact (proj2 (Hread (Some (FileAt 100)) 2%positive ("", "")
                  (Some "unexpected EOF") 2%positive eq_refl eq_refl)).
Defined.

(** The tenant denied has a file that parses, and no provider handle:
    four outside calls, and no constructor. *)
Lemma construction_calls_in_order_witness :
  ∃ cl e (s' : @State harshExt) evs,
    getProjectTypedClient "denied" (harshInitial "compute")
    = Returns (cl, Some e) s'
    ∧ trace s' = evs
    ∧ externalCalls evs
      = [EvOpen "/etc/config//denied.conf"; EvReadConfig; EvClose;
         EvNewOpenStackClient].
Proof.
  destruct (construction_calls_in_order (Ext := harshExt)
              "denied" (harshInitial "compute"))
    as (cl & err & s' & evs & Hrun & Htr & _ & _ & _ & _ & Hprov & _).
  destruct (Hprov (Some (FileAt 101)) 2%positive ("nowhere", "public")
              2%positive None "authentication failed" 2%positive
              eq_refl eq_refl eq_refl) as [Hcalls Herr].
  destruct err as [e|]; [|by destruct Herr].
  exists cl, e, s', evs. split; [exact Hrun|]. split; [exact Htr|exact Hcalls].
Defined.

Lemma construction_succeeds_iff_witness :
  @getProjectTypedClient demoExt "acme" (demoInitial "compute")
  = Returns (Some (ServiceClientAt 4), None)
      {| fac := fac (demoInitial "compute");
         world := (5%positive : @World demoExt);
         trace := [EvOpen "/etc/config//acme.conf"; EvReadConfig; EvClose;
                   EvNewOpenStackClient; EvNewComputeV2] |}.
Proof.
  apply (proj2 (construction_succeeds_iff (Ext := demoExt) "acme"
                  (demoInitial "compute") _ _)).
  exists (Some (FileAt 2)), 3%positive, ("RegionOne", "public"), 3%positive,
    (Some (ProviderClientAt 3)), 4%positive, EvNewComputeV2,
    (@NewComputeV2 demoExt), "unable to access compute v2 API : %v".
  repeat split.
Defined.

Lemma construction_error_messages_witness :
  (∃ s', @getProjectTypedClient harshExt "missing" (harshInitial "compute")
         = Returns
             (None,
              Some ("failed to read cloud provider configuration "
                    +:+ "failed to open cloud provider configuration "
                    +:+ "/etc/config//missing.conf" +:+ ": "
                    +:+ "no such file or directory")) s')
  ∧ (∃ s', @getProjectTypedClient harshExt "denied" (harshInitial "compute")
           = Returns
               (None,
                Some ("failed to create openstack client: "
                      +:+ "authentication failed")) s')
  ∧ (∃ s', @getProjectTypedClient harshExt "acme" (harshInitial "routes")
           = Returns (None, Some "no endpoint") s').
Proof.
  split; [|split].
  - exact (proj1 (construction_error_messages (Ext := harshExt) "missing"
                    (harshInitial "compute"))
             None "no such file or directory" 2%positive eq_refl).
  - exact (proj1 (proj2 (proj2 (construction_error_messages (Ext := harshExt)
                                  "denied" (harshInitial "compute"))))
             (Some (FileAt 101)) 2%positive ("nowhere", "public") 2%positive
             None "authentication failed" 2%positive eq_refl eq_refl eq_refl).
  - exact (proj2 (proj2 (proj2 (construction_error_messages (Ext := harshExt)
                                  "acme" (harshInitial "routes"))))
             (Some (FileAt 102)) 2%positive ("RegionOne", "public") 2%positive
             (Some (ProviderClientAt 2)) 3%positive
             EvNewNetworkV2 (@NewNetworkV2 harshExt)
             "Failed to create an OpenStack Network client: %v"
             None "no endpoint" 3%positive
             eq_refl eq_refl eq_refl eq_refl eq_refl).
Defined.

Lemma get_locks_once_and_unlocks_witness :
  ∃ r (s' : @State demoExt) mid,
    get (metaOf "acme") (demoInitial "compute") = Returns r s'
    ∧ m (fac s') = false
    ∧ trace s' = EvLock :: mid ++ [EvUnlock]
    ∧ forallb (λ ev, negb (isLockEvent ev)) mid = true.
Proof.
  assert (Hget : ∃ r s',
    @get demoExt (metaOf "acme") (demoInitial "compute") = Returns r s').
  { eexists _, _. vm_compute. reflexivity. }
  destruct Hget as (r & s' & Hget).
  destruct (get_locks_once_and_unlocks (Ext := demoExt) _ _ _ _ Hget)
    as (Hm & evs & Htr & _ & Htenant).
  destruct (Htenant eq_refl) as (_ & mid & -> & Hmid).
  by exists r, s', mid.
Defined.

Lemma get_reads_only_the_alias_witness :
  @get demoExt
    {| Labels := Some {[ CustomProjectAliasLabel := "acme";
                         "app" := "web" ]} |}
    (demoInitial "compute")
  = get (metaOf "acme") (demoInitial "compute").
Proof.
  apply (get_reads_only_the_alias (Ext := demoExt)). vm_compute. reflexivity.
Defined.

Lemma get_leaves_other_tenants_alone_witness :
  ∃ r (s' : @State demoExt),
    get (metaOf "acme") (demoInitial "compute") = Returns r s'
    ∧ clients (fac s') !! clientKey (fac s') "other"
      = clients (fac (demoInitial "compute"))
          !! clientKey (fac (demoInitial "compute")) "other".
Proof.
  assert (Hget : ∃ r s',
    @get demoExt (metaOf "acme") (demoInitial "compute") = Returns r s').
  { eexists _, _. vm_compute. reflexivity. }
  destruct Hget as (r & s' & Hget).
  exists r, s'. split; [exact Hget|].
  refine (proj2 (proj2 (get_leaves_other_tenants_alone (Ext := demoExt)
                          _ _ _ _ "other" Hget _))).
  vm_compute. discriminate.
Defined.

Lemma clientKey_names_kind_and_alias_witness :
  clientType (newClientsFactory "routes" demoDefault)
  = clientType (newClientsFactory "routes" None)
  ∧ "team/acme" = "team/acme".
Proof.
  apply (clientKey_names_kind_and_alias
           (newClientsFactory "routes" demoDefault)
           (newClientsFactory "routes" None) "team/acme" "team/acme");
    reflexivity.
Defined.

Lemma first_get_on_a_new_factory_witness :
  ∃ r (s' : @State harshExt),
    get (metaOf "missing") (harshInitial "compute") = Returns r s'
    ∧ loaderCalls "/etc/config//missing.conf" (trace s') = 1.
Proof.
  destruct (first_get_on_a_new_factory (Ext := harshExt) "compute" demoDefault
              2%positive (metaOf "missing") eq_refl)
    as (r & s' & Hget & Hload & _).
  by exists r, s'.
Defined.

Lemma unsupported_kind_loads_every_time_witness :
  ∃ (s' : @State demoExt) evs,
    get (metaOf "acme") (demoInitial "bogus") = Returns demoDefault s'
    ∧ trace s' = trace (demoInitial "bogus") ++ evs
    ∧ loaderCalls "/etc/config//acme.conf" evs = 1
    ∧ constructorCalls evs = 0.
Proof.
  destruct (unsupported_kind_loads_every_time (Ext := demoExt) "bogus"
              demoDefault 2%positive (demoInitial "bogus") (metaOf "acme")
              eq_refl (evolves_refl _) eq_refl)
    as (s' & evs & Hget & Htr & Hload & Hctor & _).
  by exists s', evs.
Defined.

(** A tenant, a call of default scope and a tenant without a file. *)
Lemma goroutines_exclude_each_other_witness :
  ∃ cf : @Conf demoExt,
    exec [0; 2; 0; 0; 1; 0]
      (start [metaOf "acme"; {| Labels := None |}; metaOf "ghost"]
         (demoInitial "compute"))
    = Some cf
    ∧ m (fac (shared cf)) = true
    ∧ (∀ i j pi pj,
         threads cf !! i = Some pi → threads cf !! j = Some pj →
         inCS pi = true → inCS pj = true → i = j)
    ∧ (∀ i pc,
         threads cf !! i = Some pc → stepThread pc (shared cf) ≠ Panics)
    ∧ ∃ sched' cf',
        exec ([0; 2; 0; 0; 1; 0] ++ sched')
          (start [metaOf "acme"; {| Labels := None |}; metaOf "ghost"]
             (demoInitial "compute"))
        = Some cf'
        ∧ allFinished cf' = true
        ∧ m (fac (shared cf')) = false.
Proof.
  eexists. split; [vm_compute; reflexivity|].
  split; [vm_compute; reflexivity|].
  match goal with |- context [threads ?c] => set (cf := c) end.
  assert (Hexec :
    exec [0; 2; 0; 0; 1; 0]
      (start [metaOf "acme"; {| Labels := None |}; metaOf "ghost"]
         (demoInitial "compute")) = Some cf).
  { vm_compute. reflexivity. }
  destruct (goroutines_exclude_each_other (Ext := demoExt)
              [metaOf "acme"; {| Labels := None |}; metaOf "ghost"]
              (demoInitial "compute") [0; 2; 0; 0; 1; 0] cf eq_refl Hexec)
    as (Hexcl & _ & Hsafe & _ & _ & Hdone).
  split; [exact Hexcl|]. split; [|exact Hdone].
  intros i pc Hi. exact (proj1 (Hsafe i pc Hi)).
Defined.


(** Two goroutines for the tenant acme and a call of default scope. *)
Lemma interleaved_gets_agree_witness :
  ∃ (cf : @Conf demoExt) ri rj,
    exec [0; 1; 2; 1; 1; 1; 1; 1; 0; 0; 0]
      (start [metaOf "acme"; metaOf "acme"; {| Labels := None |}]
         (demoInitial "compute"))
    = Some cf
    ∧ threads cf !! 0 = Some (Finished ri)
    ∧ threads cf !! 1 = Some (Finished rj)
    ∧ ri = rj.
Proof.
  assert (Hexec : ∃ (cf : @Conf demoExt) ri rj,
    exec [0; 1; 2; 1; 1; 1; 1; 1; 0; 0; 0]
      (start [metaOf "acme"; metaOf "acme"; {| Labels := None |}]
         (demoInitial "compute")) = Some cf
    ∧ allFinished cf = true
    ∧ threads cf !! 0 = Some (Finished ri)
    ∧ threads cf !! 1 = Some (Finished rj)
    ∧ ri ≠ demoDefault ∧ rj ≠ demoDefault).
  { eexists _, _, _. split; [vm_compute; reflexivity|].
    split; [vm_compute; reflexivity|].
    split; [vm_compute; reflexivity|].
    split; [vm_compute; reflexivity|].
    split; vm_compute; discriminate. }
  destruct Hexec as (cf & ri & rj & Hexec & Hall & Hi & Hj & Hni & Hnj).
  exists cf, ri, rj. split; [exact Hexec|]. split; [exact Hi|].
  split; [exact Hj|].
  exact (proj2 (proj2 (interleaved_gets_agree (Ext := demoExt)
                         [metaOf "acme"; metaOf "acme"; {| Labels := None |}]
                         (demoInitial "compute") _ cf eq_refl Hexec Hall))
           0 1 (metaOf "acme") (metaOf "acme") ri rj
           eq_refl eq_refl Hi Hj eq_refl Hni Hnj).
Defined.
